(** * OPD token allocation engine: capacity, decision and slot mutation

    A shallow embedding of the service layer of the repository
    ([src/services/slotCapacity.ts], [src/services/allocationEngine.ts],
    [src/services/slotMutator.ts]) together with the domain records it
    works on ([src/domain/enums.ts], [Token.ts], [Slot.ts]), and of its
    callers: the store's search helpers ([src/store/inMemoryStore.ts]),
    the token controller in its two versions
    ([src/controllers/tokenController.ts]) and the token processing of
    the simulation ([src/simulation/simulateDay.ts]).

    Modelling conventions.
    - JavaScript numbers that hold counts, capacities and priorities are
      integers of [Z]; array lengths are [Z.of_nat (length _)].  Sums
      and differences of capacities round as binary64 arithmetic does
      (section "JavaScript numbers").
    - [TokenSource] is a string enum whose values reach the engine
      unchecked from a request body ([source as TokenSource]), so a source
      is a [string] and the five members of the enum are string constants.
    - Arrays are lists.  The mutator changes [slot.tokens] and
      [slot.waitlist] in place; here every mutating function returns the
      slot after the call.  The two arrays of a slot are distinct objects
      (every slot is built with two array literals).
    - [undefined] / [null] results are [None].
    - The store is passed to and returned by the code that reads and
      changes the module-level [store]; clock readings and random draws
      are arguments. *)

From stdpp Require Import base numbers list strings pretty.

Local Open Scope Z_scope.

(* ================================================================== *)
(** ** Domain: enums.ts *)

Definition TokenSource := string.

Definition ONLINE : TokenSource := "ONLINE".
Definition WALK_IN : TokenSource := "WALK_IN".
Definition PRIORITY : TokenSource := "PRIORITY".
Definition FOLLOW_UP : TokenSource := "FOLLOW_UP".
Definition EMERGENCY : TokenSource := "EMERGENCY".

Inductive TokenStatus :=
  | CREATED | CONFIRMED | CHECKED_IN | COMPLETED | CANCELLED | NO_SHOW.

(** [PriorityLevel] is a numeric enum: its members are plain numbers. *)
Definition PriorityLevel := Z.

Definition LOW : PriorityLevel := 20.
Definition MEDIUM : PriorityLevel := 40.
Definition HIGH : PriorityLevel := 60.
Definition VERY_HIGH : PriorityLevel := 80.
Definition EMERGENCY_LEVEL : PriorityLevel := 100.

(* ================================================================== *)
(** ** JavaScript numbers

    A [number] is an IEEE binary64 value.  The numbers of this program
    are integers, and an integer is a binary64 value when it has at most
    53 significant bits.  Comparisons of such numbers are exact; a sum
    or a difference is the exact result rounded to the nearest binary64
    value, ties to the even significand.  The exponent is not bounded
    here: a result beyond the binary64 range, [Infinity] in the code, is
    a number of the same sign and of more than 300 digits, which
    compares the same way with every count and capacity. *)

Definition round53 (z : Z) : Z :=
  if Z.abs z <? 2 ^ 53 then z
  else
    let u := 2 ^ (Z.log2 (Z.abs z) - 52) in
    let q := Z.abs z / u in
    let r := Z.abs z mod u in
    let q' :=
      if 2 * r <? u then q
      else if u <? 2 * r then q + 1
      else if Z.even q then q else q + 1 in
    Z.sgn z * (q' * u).

(** [a + b] and [a - b] on numbers. *)
Definition jsAdd (a b : Z) : Z := round53 (a + b).
Definition jsSub (a b : Z) : Z := round53 (a - b).

(** [Number::toString] in radix 10, as a template literal applies it:
    the fewest significant digits that still denote the number, the
    closest such digits when there is a choice; positional notation up
    to 21 digits, exponent notation beyond. *)
Definition digitCount (x : Z) : nat := String.length (pretty x).

(** The multiples of [10 ^ p] next to [x] that round to [x]. *)
Definition shortestAt (x : Z) (p : Z) : option Z :=
  let lo := x / 10 ^ p * 10 ^ p in
  let hi := lo + 10 ^ p in
  match bool_decide (round53 lo = x), bool_decide (round53 hi = x) with
  | true, true =>
      if x - lo <? hi - x then Some lo
      else if hi - x <? x - lo then Some hi
      else if Z.even (x / 10 ^ p) then Some lo else Some hi
  | true, false => Some lo
  | false, true => Some hi
  | false, false => None
  end.

Fixpoint shortestFrom (x : Z) (p : nat) : Z :=
  match shortestAt x (Z.of_nat p) with
  | Some v => v
  | None => match p with O => x | S p' => shortestFrom x p' end
  end.

Definition shortest (x : Z) : Z := shortestFrom x (digitCount x - 1).

Fixpoint stripZeros (s : string) : string :=
  match s with
  | EmptyString => EmptyString
  | String c s' =>
      match stripZeros s' with
      | EmptyString =>
          if Ascii.eqb c (Ascii.ascii_of_nat 48) then EmptyString
          else String c EmptyString
      | t => String c t
      end
  end.

Definition positiveToString (x : Z) : string :=
  let v := shortest x in
  let n := digitCount v in
  if (n <=? 21)%nat then pretty v
  else
    match stripZeros (pretty v) with
    | EmptyString => pretty v
    | String d EmptyString => String d ("e+" +:+ pretty (Z.of_nat n - 1))
    | String d rest =>
        String d ("." +:+ rest +:+ "e+" +:+ pretty (Z.of_nat n - 1))
    end.

Definition numberToString (z : Z) : string :=
  let x := round53 z in
  if x =? 0 then "0"
  else if x <? 0 then "-" +:+ positiveToString (- x)
  else positiveToString x.

(* ================================================================== *)
(** ** Domain: Token.ts and Slot.ts *)

(** Dates are kept as epoch milliseconds. *)
Record Token := mkToken {
  id : string;
  patientId : string;
  doctorId : string;
  slotId : string;
  source : TokenSource;
  priority : PriorityLevel;
  status : TokenStatus;
  createdAt : Z;
  checkedInAt : option Z;
  completedAt : option Z;
  movable : bool
}.

Record SlotCapacity := mkSlotCapacity {
  max : Z;
  emergencyBuffer : Z;
  priorityBuffer : Z
}.

(** The slot's own [id] and [doctorId] carry a prefix, the names being
    taken by the token's fields. *)
Record Slot := mkSlot {
  slot_id : string;
  slot_doctorId : string;
  startTime : Z;
  endTime : Z;
  capacity : SlotCapacity;
  tokens : list Token;
  waitlist : list Token
}.

(** In-place mutation of the two arrays, as state passing. *)
Definition set_tokens (slot : Slot) (ts : list Token) : Slot :=
  mkSlot (slot_id slot) (slot_doctorId slot) (startTime slot) (endTime slot)
         (capacity slot) ts (waitlist slot).

Definition set_waitlist (slot : Slot) (ws : list Token) : Slot :=
  mkSlot (slot_id slot) (slot_doctorId slot) (startTime slot) (endTime slot)
         (capacity slot) (tokens slot) ws.

(* ================================================================== *)
(** ** services/slotCapacity.ts *)

Definition getTotalAllocated (slot : Slot) : Z :=
  Z.of_nat (length (tokens slot)).

Definition getEmergencyCount (slot : Slot) : Z :=
  Z.of_nat (length (filter (λ token, source token = EMERGENCY) (tokens slot))).

Definition getPriorityCount (slot : Slot) : Z :=
  Z.of_nat (length (filter
    (λ token, source token = PRIORITY ∨ source token = FOLLOW_UP)
    (tokens slot))).

Definition getGeneralCount (slot : Slot) : Z :=
  Z.of_nat (length (filter
    (λ token, source token = ONLINE ∨ source token = WALK_IN)
    (tokens slot))).

Definition hasHardCapacity (slot : Slot) : bool :=
  getTotalAllocated slot <? max (capacity slot).

Definition canConsumeEmergencyBuffer (slot : Slot) : bool :=
  getEmergencyCount slot <? emergencyBuffer (capacity slot).

Definition canConsumePriorityBuffer (slot : Slot) : bool :=
  getPriorityCount slot <? priorityBuffer (capacity slot).

(** The [switch] on [token.source] is a chain of string comparisons with
    a [default] branch. *)
Definition canAllocateToken (slot : Slot) (token : Token) : bool :=
  if negb (hasHardCapacity slot) then false
  else
    let reservedCapacity :=
      jsAdd (emergencyBuffer (capacity slot)) (priorityBuffer (capacity slot)) in
    let generalCapacity := jsSub (max (capacity slot)) reservedCapacity in
    let generalCount := getGeneralCount slot in
    if decide (source token = EMERGENCY) then
      canConsumeEmergencyBuffer slot || (generalCount <? generalCapacity)
    else if decide (source token = PRIORITY ∨ source token = FOLLOW_UP) then
      canConsumePriorityBuffer slot || (generalCount <? generalCapacity)
    else if decide (source token = ONLINE ∨ source token = WALK_IN) then
      generalCount <? generalCapacity
    else false.

(* ================================================================== *)
(** ** services/allocationEngine.ts *)

Inductive AllocationStatus := ALLOCATED | WAITLISTED | REJECTED | DISPLACED.

Record AllocationResult := mkAllocationResult {
  result_status : AllocationStatus;
  allocatedToken : option Token;
  displacedToken : option Token;
  reason : option string
}.

(** The predicate of the [filter] call: [movable === true] and a source
    other than EMERGENCY. *)
Definition eligible (token : Token) : Prop :=
  movable token = true ∧ source token ≠ EMERGENCY.

#[global] Instance eligible_dec token : Decision (eligible token).
Proof. unfold eligible. apply _. Defined.

(** One turn of the [for ... of] loop over the eligible tokens. *)
Definition lower (lowestToken token : Token) : Token :=
  if priority token <? priority lowestToken then token else lowestToken.

Definition findLowestPriorityMovableToken (slot : Slot) : option Token :=
  let eligibleTokens := filter eligible (tokens slot) in
  match eligibleTokens with
  | [] => None
  | first :: _ => Some (foldl lower first eligibleTokens)
  end.

Definition displacement_reason (lowest incoming : Z) : string :=
  "Token can displace lower-priority token (" +:+ numberToString lowest
    +:+ " < " +:+ numberToString incoming +:+ ")".

(** Steps 3 and 4 of the decision, reached from both arms of the
    test [lowestPriorityToken !== null && ...]. *)
Definition waitlistOrReject (token : Token) : AllocationResult :=
  if MEDIUM <=? priority token then
    mkAllocationResult WAITLISTED (Some token) None
      (Some "Slot full, token added to waitlist due to sufficient priority")
  else
    mkAllocationResult REJECTED None None
      (Some "Slot full and token priority too low for waitlist").

Definition allocateTokenToSlot (slot : Slot) (token : Token)
  : AllocationResult :=
  if canAllocateToken slot token then
    mkAllocationResult ALLOCATED (Some token) None
      (Some "Slot has available capacity for this token")
  else
    let lowestPriorityToken := findLowestPriorityMovableToken slot in
    match lowestPriorityToken with
    | Some lowest =>
        if priority lowest <? priority token then
          mkAllocationResult DISPLACED (Some token) (Some lowest)
            (Some (displacement_reason (priority lowest) (priority token)))
        else waitlistOrReject token
    | None => waitlistOrReject token
    end.

(* ================================================================== *)
(** ** services/slotMutator.ts *)

(** [Array.prototype.findIndex]: the index of the first element that
    satisfies the predicate, [-1] when there is none. *)
Fixpoint findIndex_from (p : Token → bool) (l : list Token) (i : Z) : Z :=
  match l with
  | [] => -1
  | t :: l' => if p t then i else findIndex_from p l' (i + 1)
  end.

Definition findIndex (p : Token → bool) (l : list Token) : Z :=
  findIndex_from p l 0.

(** Returns the removed token (or [None]) and the array after the call.
    [splice(index, 1)] is [delete index]; its result's element [0] is the
    element that stood at [index]. *)
Definition removeTokenById (tokens : list Token) (tokenId : string)
  : option Token * list Token :=
  let index := findIndex (λ t, bool_decide (id t = tokenId)) tokens in
  if index =? -1 then (None, tokens)
  else (tokens !! Z.to_nat index, delete (Z.to_nat index) tokens).

(** One turn of the loop [for (let i = 1; i < waitlist.length; i++)]. *)
Definition higher (waitlist : list Token) (highestIndex i : nat) : nat :=
  match waitlist !! i, waitlist !! highestIndex with
  | Some wi, Some wh => if priority wh <? priority wi then i else highestIndex
  | _, _ => highestIndex
  end.

Definition findHighestPriorityIndex (waitlist : list Token) : Z :=
  if (length waitlist =? 0)%nat then -1
  else Z.of_nat
         (foldl (higher waitlist) 0%nat (seq 1 (length waitlist - 1))).

(** The index returned by [findHighestPriorityIndex] is always inside the
    waitlist (lemma [findHighestPriorityIndex_spec]), so the last branch
    is never taken. *)
Definition promoteFromWaitlist (slot : Slot) : Slot :=
  let highestIndex := findHighestPriorityIndex (waitlist slot) in
  if highestIndex =? -1 then slot
  else
    match waitlist slot !! Z.to_nat highestIndex with
    | Some promoted =>
        let slot1 :=
          set_waitlist slot (delete (Z.to_nat highestIndex) (waitlist slot)) in
        set_tokens slot1 (tokens slot1 ++ [promoted])
    | None => slot
    end.

Definition applyAllocationResult (slot : Slot) (result : AllocationResult)
  : Slot :=
  match result_status result with
  | ALLOCATED =>
      match allocatedToken result with
      | Some allocated => set_tokens slot (tokens slot ++ [allocated])
      | None => slot
      end
  | DISPLACED =>
      match displacedToken result, allocatedToken result with
      | Some displaced, Some allocated =>
          let slot1 :=
            set_tokens slot (removeTokenById (tokens slot) (id displaced)).2 in
          let slot2 := set_tokens slot1 (tokens slot1 ++ [allocated]) in
          set_waitlist slot2 (waitlist slot2 ++ [displaced])
      | _, _ => slot
      end
  | WAITLISTED =>
      match allocatedToken result with
      | Some allocated => set_waitlist slot (waitlist slot ++ [allocated])
      | None => slot
      end
  | REJECTED => slot
  end.

Definition cancelToken (slot : Slot) (tokenId : string) : Slot :=
  let removed := removeTokenById (tokens slot) tokenId in
  let slot1 := set_tokens slot removed.2 in
  match removed.1 with
  | Some _ => promoteFromWaitlist slot1
  | None => slot1
  end.

Definition markNoShow (slot : Slot) (tokenId : string) : Slot :=
  cancelToken slot tokenId.

(* ================================================================== *)
(** ** The repository's own test fixtures, replayed *)

Definition createTestToken (i : string) (src : TokenSource)
    (prio : PriorityLevel) (mov : bool) : Token :=
  mkToken i "patient-1" "test-doctor" "test-slot" src prio CREATED 0
          None None mov.

Definition createTestSlot (ts ws : list Token) (cap : SlotCapacity) : Slot :=
  mkSlot "test-slot" "test-doctor" 0 0 cap ts ws.

Definition defaultCapacity : SlotCapacity := mkSlotCapacity 5 1 1.

(* ================================================================== *)
(** ** Vocabulary of the specification, and the callers of the core *)

(** General capacity as the specification writes it: what is left of
    [max] once both buffers are set aside, negative when the buffers
    over-subscribe [max].  The code computes it in binary64 (see
    [canAllocateToken]); the two agree on safe capacities. *)
Definition generalCapacity (slot : Slot) : Z :=
  max (capacity slot) - emergencyBuffer (capacity slot)
    - priorityBuffer (capacity slot).

(** The reserved total and the general capacity are safe integers
    (below [2 ^ 53] in magnitude), so that the code computes both
    exactly. *)
Definition safe_capacity (slot : Slot) : Prop :=
  Z.abs (emergencyBuffer (capacity slot) + priorityBuffer (capacity slot))
    < 2 ^ 53
  ∧ Z.abs (max (capacity slot)
           - (emergencyBuffer (capacity slot) + priorityBuffer (capacity slot)))
    < 2 ^ 53.

Definition known_source (s : TokenSource) : Prop :=
  s = ONLINE ∨ s = WALK_IN ∨ s = PRIORITY ∨ s = FOLLOW_UP ∨ s = EMERGENCY.

(** Identifiers held by a slot, occupants first. *)
Definition ids (slot : Slot) : list string :=
  id <$> (tokens slot ++ waitlist slot).

(** The slot of the counterexample to the overflow law: buffers of one
    each inside [max = 3]; two emergencies (one in its buffer, one
    overflowed) and one priority token fill the slot while the general
    count is still zero. *)
Definition full_by_overflow : Slot :=
  createTestSlot
    [ createTestToken "e1" EMERGENCY EMERGENCY_LEVEL false;
      createTestToken "e2" EMERGENCY EMERGENCY_LEVEL false;
      createTestToken "p1" PRIORITY HIGH true ]
    [] (mkSlotCapacity 3 1 1).

(** The controller's use of the core: decide, then apply once. *)
Definition createToken (slot : Slot) (token : Token) : Slot :=
  applyAllocationResult slot (allocateTokenToSlot slot token).

Definition within_max (slot : Slot) : Prop :=
  getTotalAllocated slot ≤ max (capacity slot).

(** Requests as the controllers receive them, and their handling. *)
Inductive Request :=
  | Submit (token : Token)
  | CancelRequest (tokenId : string)
  | NoShowRequest (tokenId : string).

Definition handle (slot : Slot) (req : Request) : Slot :=
  match req with
  | Submit token => createToken slot token
  | CancelRequest tokenId => cancelToken slot tokenId
  | NoShowRequest tokenId => markNoShow slot tokenId
  end.

(** The three mutating entry points, as calls on a slot. *)
Inductive Call :=
  | Apply (result : AllocationResult)
  | Cancel (tokenId : string)
  | NoShow (tokenId : string).

Definition call (slot : Slot) (c : Call) : Slot :=
  match c with
  | Apply result => applyAllocationResult slot result
  | Cancel tokenId => cancelToken slot tokenId
  | NoShow tokenId => markNoShow slot tokenId
  end.

Definition calls (slot : Slot) (cs : list Call) : Slot := foldl call slot cs.

(** What a decision must satisfy for [applyAllocationResult] to keep the
    identifiers distinct: the incoming token is new to the slot and, in
    a displacement, the displaced token has another identifier and is
    not waiting already. *)
Definition fresh_result (slot : Slot) (r : AllocationResult) : Prop :=
  match result_status r with
  | ALLOCATED | WAITLISTED =>
      ∀ t, allocatedToken r = Some t → id t ∉ ids slot
  | DISPLACED =>
      ∀ t d, allocatedToken r = Some t → displacedToken r = Some d →
             (id t ∉ ids slot) ∧ id t ≠ id d ∧ (id d ∉ id <$> waitlist slot)
  | REJECTED => True
  end.

Fixpoint fresh_calls (slot : Slot) (cs : list Call) : Prop :=
  match cs with
  | [] => True
  | c :: cs' =>
      match c with Apply r => fresh_result slot r | _ => True end
      ∧ fresh_calls (call slot c) cs'
  end.

(** Every submitted token is new to the slot it is submitted to. *)
Fixpoint fresh_requests (slot : Slot) (reqs : list Request) : Prop :=
  match reqs with
  | [] => True
  | req :: reqs' =>
      match req with Submit token => id token ∉ ids slot | _ => True end
      ∧ fresh_requests (handle slot req) reqs'
  end.

(* ================================================================== *)
(** ** Domain: Doctor.ts; store/inMemoryStore.ts *)

Record Doctor := mkDoctor {
  doctor_id : string;
  name : string;
  department : string;
  slots : list Slot
}.

Definition set_slots (doctor : Doctor) (ss : list Slot) : Doctor :=
  mkDoctor (doctor_id doctor) (name doctor) (department doctor) ss.

(** The store is the array [store.doctors]; it is passed to the helpers
    and handlers that read the module-level [store], and returned by
    those that change a slot inside it. *)
Definition findDoctorById (doctors : list Doctor) (doctorId : string)
  : option Doctor :=
  find (λ d, bool_decide (doctor_id d = doctorId)) doctors.

Definition findSlot (doctors : list Doctor) (doctorId slotId : string)
  : option Slot :=
  match findDoctorById doctors doctorId with
  | None => None
  | Some doctor => find (λ s, bool_decide (slot_id s = slotId)) (slots doctor)
  end.

(** The test [inTokens || inWaitlist] of the search loops. *)
Definition holdsToken (tokenId : string) (slot : Slot) : bool :=
  let inTokens := existsb (λ t, bool_decide (id t = tokenId)) (tokens slot) in
  let inWaitlist :=
    existsb (λ t, bool_decide (id t = tokenId)) (waitlist slot) in
  inTokens || inWaitlist.

(** Two nested [for ... of] loops with a [return] inside: the inner loop
    is a [find] over the doctor's slots. *)
Fixpoint findSlotByTokenId (doctors : list Doctor) (tokenId : string)
  : option (Slot * Doctor) :=
  match doctors with
  | [] => None
  | doctor :: rest =>
      match find (holdsToken tokenId) (slots doctor) with
      | Some slot => Some (slot, doctor)
      | None => findSlotByTokenId rest tokenId
      end
  end.

(** A handler changes the slot object that the search returned: the
    first element that satisfies the search predicate.  (No slot object
    sits at two places of the store.) *)
Fixpoint update_first {A : Type} (p : A → bool) (f : A → A) (l : list A)
  : list A :=
  match l with
  | [] => []
  | x :: l' => if p x then f x :: l' else x :: update_first p f l'
  end.

(** In-place change of the slot that [findSlot] returns. *)
Definition updateSlot (doctors : list Doctor) (doctorId slotId : string)
    (f : Slot → Slot) : list Doctor :=
  update_first (λ d, bool_decide (doctor_id d = doctorId))
    (λ d, set_slots d
            (update_first (λ s, bool_decide (slot_id s = slotId)) f (slots d)))
    doctors.

(** In-place change of the slot that [findSlotByTokenId] returns. *)
Definition updateSlotByTokenId (doctors : list Doctor) (tokenId : string)
    (f : Slot → Slot) : list Doctor :=
  update_first (λ d, existsb (holdsToken tokenId) (slots d))
    (λ d, set_slots d (update_first (holdsToken tokenId) f (slots d)))
    doctors.

(* ================================================================== *)
(** ** controllers/tokenController.ts *)

(** The fields of [req.body] that [createTokenHandler] reads.
    [patientId] and [movable] may be missing. *)
Record CreateTokenBody := mkCreateTokenBody {
  body_doctorId : string;
  body_slotId : string;
  body_patientId : option string;
  body_source : TokenSource;
  body_priority : PriorityLevel;
  body_movable : option bool
}.

(** What the handler draws from outside while it builds the token, in
    the order of the object literal: [Date.now()] and the random suffix
    of the identifier, [Date.now()] of the default patient, and
    [new Date()]. *)
Record Entropy := mkEntropy {
  now_id : Z;
  random_id : string;
  now_patient : Z;
  now_created : Z
}.

(** The [slot] object of a response; [capacity] is only sent by
    [createTokenHandler]. *)
Record SlotSummary := mkSlotSummary {
  summary_id : string;
  tokensCount : Z;
  waitlistCount : Z;
  summary_capacity : option SlotCapacity
}.

Inductive ResponseBody :=
  | ErrorBody (error : string)
  | CreatedBody (result : AllocationResult) (slot : SlotSummary)
  | MessageBody (message : string) (slot : SlotSummary).

(** [res.status(code).json(body)]. *)
Record Response := mkResponse {
  statusCode : Z;
  json : ResponseBody
}.

(** [patientId || `patient-${Date.now()}`]: a missing or empty
    [patientId] is falsy. *)
Definition patientIdOrDefault (patientId : option string) (now : Z) : string :=
  match patientId with
  | Some p => if decide (p = "") then "patient-" +:+ numberToString now else p
  | None => "patient-" +:+ numberToString now
  end.

(** The object literal [token] of [createTokenHandler]. *)
Definition newToken (env : Entropy) (body : CreateTokenBody) : Token :=
  mkToken ("token-" +:+ numberToString (now_id env) +:+ "-" +:+ random_id env)
          (patientIdOrDefault (body_patientId body) (now_patient env))
          (body_doctorId body) (body_slotId body)
          (body_source body) (body_priority body) CREATED
          (now_created env) None None
          (default true (body_movable body)).

Definition createTokenHandler (env : Entropy) (body : CreateTokenBody)
    (doctors : list Doctor) : Response * list Doctor :=
  match findSlot doctors (body_doctorId body) (body_slotId body) with
  | None => (mkResponse 404 (ErrorBody "Slot not found"), doctors)
  | Some slot =>
      let token := newToken env body in
      let result := allocateTokenToSlot slot token in
      let slot' := applyAllocationResult slot result in
      (mkResponse 201
         (CreatedBody result
            (mkSlotSummary (slot_id slot')
               (Z.of_nat (length (tokens slot')))
               (Z.of_nat (length (waitlist slot')))
               (Some (capacity slot')))),
       updateSlot doctors (body_doctorId body) (body_slotId body)
                  (λ _, slot'))
  end.

Definition cancelTokenHandler (tokenId : string) (doctors : list Doctor)
  : Response * list Doctor :=
  match findSlotByTokenId doctors tokenId with
  | None => (mkResponse 404 (ErrorBody "Token not found"), doctors)
  | Some (slot, _) =>
      let slot' := cancelToken slot tokenId in
      (mkResponse 200
         (MessageBody "Token cancelled successfully"
            (mkSlotSummary (slot_id slot')
               (Z.of_nat (length (tokens slot')))
               (Z.of_nat (length (waitlist slot')))
               None)),
       updateSlotByTokenId doctors tokenId (λ _, slot'))
  end.

Definition markNoShowHandler (tokenId : string) (doctors : list Doctor)
  : Response * list Doctor :=
  match findSlotByTokenId doctors tokenId with
  | None => (mkResponse 404 (ErrorBody "Token not found"), doctors)
  | Some (slot, _) =>
      let slot' := markNoShow slot tokenId in
      (mkResponse 200
         (MessageBody "Token marked as no-show"
            (mkSlotSummary (slot_id slot')
               (Z.of_nat (length (tokens slot')))
               (Z.of_nat (length (waitlist slot')))
               None)),
       updateSlotByTokenId doctors tokenId (λ _, slot'))
  end.

(** Every slot of the store holds at most [max] occupants. *)
Definition store_within_max (doctors : list Doctor) : Prop :=
  ∀ doctor slot, doctor ∈ doctors → slot ∈ slots doctor → within_max slot.

(** The part of the store that no handler changes: the doctors, and for
    each the identifiers and capacities of the slots. *)
Definition slot_frame (slot : Slot) : string * string * Z * Z * SlotCapacity :=
  (slot_id slot, slot_doctorId slot, startTime slot, endTime slot,
   capacity slot).

Definition store_frame (doctors : list Doctor)
  : list (string * string * string
          * list (string * string * Z * Z * SlotCapacity)) :=
  (λ d, (doctor_id d, name d, department d, slot_frame <$> slots d))
    <$> doctors.

(** *** The first version of the controller, which searches inline *)

Module InlineSearch.

(** [createTokenHandler] with its own two [find] calls, a separate
    answer for a missing doctor, and the identifier
    [`${doctorId}-${slotId}-${Date.now()}-${random}`]. *)
Definition newToken (env : Entropy) (body : CreateTokenBody) : Token :=
  mkToken (body_doctorId body +:+ "-" +:+ body_slotId body +:+ "-"
             +:+ numberToString (now_id env) +:+ "-" +:+ random_id env)
          (patientIdOrDefault (body_patientId body) (now_patient env))
          (body_doctorId body) (body_slotId body)
          (body_source body) (body_priority body) CREATED
          (now_created env) None None
          (default true (body_movable body)).

Definition createTokenHandler (env : Entropy) (body : CreateTokenBody)
    (doctors : list Doctor) : Response * list Doctor :=
  match find (λ d, bool_decide (doctor_id d = body_doctorId body)) doctors with
  | None => (mkResponse 404 (ErrorBody "Doctor not found"), doctors)
  | Some doctor =>
      match find (λ s, bool_decide (slot_id s = body_slotId body))
                 (slots doctor) with
      | None => (mkResponse 404 (ErrorBody "Slot not found"), doctors)
      | Some slot =>
          let token := newToken env body in
          let result := allocateTokenToSlot slot token in
          let slot' := applyAllocationResult slot result in
          (mkResponse 201
             (CreatedBody result
                (mkSlotSummary (slot_id slot')
                   (Z.of_nat (length (tokens slot')))
                   (Z.of_nat (length (waitlist slot')))
                   (Some (capacity slot')))),
           updateSlot doctors (body_doctorId body) (body_slotId body)
                      (λ _, slot'))
      end
  end.

(** The loop over a doctor's slots: at the first slot that holds the
    identifier the mutator runs on it and the handler answers. *)
Fixpoint cancelInSlots (tokenId : string) (ss : list Slot)
  : option (Response * list Slot) :=
  match ss with
  | [] => None
  | slot :: rest =>
      if holdsToken tokenId slot then
        let slot' := cancelToken slot tokenId in
        Some (mkResponse 200
                (MessageBody "Token cancelled successfully"
                   (mkSlotSummary (slot_id slot')
                      (Z.of_nat (length (tokens slot')))
                      (Z.of_nat (length (waitlist slot')))
                      None)),
              slot' :: rest)
      else
        match cancelInSlots tokenId rest with
        | Some (response, rest') => Some (response, slot :: rest')
        | None => None
        end
  end.

(** The loop over the doctors. *)
Fixpoint cancelInDoctors (tokenId : string) (doctors : list Doctor)
  : option (Response * list Doctor) :=
  match doctors with
  | [] => None
  | doctor :: rest =>
      match cancelInSlots tokenId (slots doctor) with
      | Some (response, ss') => Some (response, set_slots doctor ss' :: rest)
      | None =>
          match cancelInDoctors tokenId rest with
          | Some (response, rest') => Some (response, doctor :: rest')
          | None => None
          end
      end
  end.

Definition cancelTokenHandler (tokenId : string) (doctors : list Doctor)
  : Response * list Doctor :=
  match cancelInDoctors tokenId doctors with
  | Some answered => answered
  | None => (mkResponse 404 (ErrorBody "Token not found"), doctors)
  end.

Fixpoint noShowInSlots (tokenId : string) (ss : list Slot)
  : option (Response * list Slot) :=
  match ss with
  | [] => None
  | slot :: rest =>
      if holdsToken tokenId slot then
        let slot' := markNoShow slot tokenId in
        Some (mkResponse 200
                (MessageBody "Token marked as no-show"
                   (mkSlotSummary (slot_id slot')
                      (Z.of_nat (length (tokens slot')))
                      (Z.of_nat (length (waitlist slot')))
                      None)),
              slot' :: rest)
      else
        match noShowInSlots tokenId rest with
        | Some (response, rest') => Some (response, slot :: rest')
        | None => None
        end
  end.

Fixpoint noShowInDoctors (tokenId : string) (doctors : list Doctor)
  : option (Response * list Doctor) :=
  match doctors with
  | [] => None
  | doctor :: rest =>
      match noShowInSlots tokenId (slots doctor) with
      | Some (response, ss') => Some (response, set_slots doctor ss' :: rest)
      | None =>
          match noShowInDoctors tokenId rest with
          | Some (response, rest') => Some (response, doctor :: rest')
          | None => None
          end
      end
  end.

Definition markNoShowHandler (tokenId : string) (doctors : list Doctor)
  : Response * list Doctor :=
  match noShowInDoctors tokenId doctors with
  | Some answered => answered
  | None => (mkResponse 404 (ErrorBody "Token not found"), doctors)
  end.

End InlineSearch.

(* ================================================================== *)
(** ** simulation/simulateDay.ts *)

Module Simulation.

(** The module-level counters of the end-of-day summary. *)
Record Counters := mkCounters {
  totalTokensProcessed : Z;
  totalEmergencies : Z;
  totalDisplaced : Z;
  totalRejected : Z;
  totalWaitlisted : Z;
  totalAllocated : Z
}.

Definition noCounts : Counters := mkCounters 0 0 0 0 0 0.

(** [createdAt] is the clock reading [now]. *)
Definition createToken (tokenId patientId doctorId slotId : string)
    (source : TokenSource) (priority : PriorityLevel) (movable : bool)
    (now : Z) : Token :=
  mkToken tokenId patientId doctorId slotId source priority CREATED now
          None None movable.

Definition getPriorityForSource (source : TokenSource) : PriorityLevel :=
  if decide (source = EMERGENCY) then EMERGENCY_LEVEL
  else if decide (source = PRIORITY) then VERY_HIGH
  else if decide (source = FOLLOW_UP) then HIGH
  else if decide (source = ONLINE) then MEDIUM
  else if decide (source = WALK_IN) then LOW
  else LOW.

Definition isMovableSource (source : TokenSource) : bool :=
  bool_decide (source ≠ EMERGENCY) && bool_decide (source ≠ PRIORITY).

(** The value of [result.status], a member of the string union
    [AllocationStatus]. *)
Definition statusString (s : AllocationStatus) : string :=
  match s with
  | ALLOCATED => "ALLOCATED"
  | WAITLISTED => "WAITLISTED"
  | REJECTED => "REJECTED"
  | DISPLACED => "DISPLACED"
  end.

Definition getStatusIcon (s : string) : string :=
  if decide (s = "ALLOCATED") then "✅"
  else if decide (s = "DISPLACED") then "🔄"
  else if decide (s = "WAITLISTED") then "⏳"
  else if decide (s = "REJECTED") then "🚫"
  else "❓".

(** The line that [processToken] writes to the console; an empty
    [reason] is falsy. *)
Definition logLine (token : Token) (result : AllocationResult) : string :=
  "    " +:+ getStatusIcon (statusString (result_status result))
    +:+ " [" +:+ source token +:+ "] Token " +:+ id token +:+ " → "
    +:+ statusString (result_status result)
    +:+ match reason result with
        | Some r => if decide (r = "") then "" else " (" +:+ r +:+ ")"
        | None => ""
        end.

(** State: the counters, the slot, and the console output so far. *)
Definition processToken (st : Counters * Slot * list string) (token : Token)
  : Counters * Slot * list string :=
  let '(c, slot, out) := st in
  let result := allocateTokenToSlot slot token in
  let slot' := applyAllocationResult slot result in
  let processed := totalTokensProcessed c + 1 in
  let c' :=
    match result_status result with
    | ALLOCATED =>
        mkCounters processed (totalEmergencies c) (totalDisplaced c)
                   (totalRejected c) (totalWaitlisted c) (totalAllocated c + 1)
    | DISPLACED =>
        mkCounters processed (totalEmergencies c) (totalDisplaced c + 1)
                   (totalRejected c) (totalWaitlisted c) (totalAllocated c + 1)
    | WAITLISTED =>
        mkCounters processed (totalEmergencies c) (totalDisplaced c)
                   (totalRejected c) (totalWaitlisted c + 1) (totalAllocated c)
    | REJECTED =>
        mkCounters processed (totalEmergencies c) (totalDisplaced c)
                   (totalRejected c + 1) (totalWaitlisted c) (totalAllocated c)
    end in
  (c', slot', out ++ [logLine token result]).

End Simulation.

(** The place at which a search by token identifier stops: the first
    doctor with a slot that holds the identifier, and the first such
    slot of that doctor. *)
Definition first_holder (doctors : list Doctor) (tokenId : string)
    (ds1 : list Doctor) (doctor : Doctor) (ds2 : list Doctor)
    (ss1 : list Slot) (slot : Slot) (ss2 : list Slot) : Prop :=
  doctors = ds1 ++ doctor :: ds2
  ∧ (∀ d s, d ∈ ds1 → s ∈ slots d → tokenId ∉ ids s)
  ∧ slots doctor = ss1 ++ slot :: ss2
  ∧ (∀ s, s ∈ ss1 → tokenId ∉ ids s)
  ∧ tokenId ∈ ids slot.

(** The place at which [findSlot] stops: the first doctor with the
    identifier and the first slot of that doctor with the slot
    identifier. *)
Definition slot_place (doctors : list Doctor) (doctorId slotId : string)
    (ds1 : list Doctor) (doctor : Doctor) (ds2 : list Doctor)
    (ss1 : list Slot) (slot : Slot) (ss2 : list Slot) : Prop :=
  doctors = ds1 ++ doctor :: ds2
  ∧ (∀ d, d ∈ ds1 → doctor_id d ≠ doctorId)
  ∧ doctor_id doctor = doctorId
  ∧ slots doctor = ss1 ++ slot :: ss2
  ∧ (∀ s, s ∈ ss1 → slot_id s ≠ slotId)
  ∧ slot_id slot = slotId.

(** The [slot] object of a response, read off a slot. *)
Definition summary (slot : Slot) (cap : option SlotCapacity) : SlotSummary :=
  mkSlotSummary (slot_id slot) (Z.of_nat (length (tokens slot)))
                (Z.of_nat (length (waitlist slot))) cap.

(** A one-slot store for the examples. *)
Definition sample_slot : Slot :=
  mkSlot "doc-A-slot-1" "doc-A" 9 10 defaultCapacity
         [createTestToken "active" ONLINE MEDIUM true]
         [createTestToken "wait" WALK_IN HIGH true].

Definition sample_doctor : Doctor :=
  mkDoctor "doc-A" "Dr. Sharma" "General Medicine" [sample_slot].

(** Tokens in a slot, occupants and waitlist together. *)
Definition population (slot : Slot) : Z :=
  Z.of_nat (length (tokens slot) + length (waitlist slot)).

(* ================================================================== *)
(** * Properties *)

(** ** Capacity evaluator *)

Section Capacity.
Variable slot : Slot.

Lemma getGeneralCount_nonneg : 0 ≤ getGeneralCount slot.
Proof. unfold getGeneralCount. lia. Qed.

Lemma hasHardCapacity_true :
  hasHardCapacity slot = true ↔ getTotalAllocated slot < max (capacity slot).
Proof. unfold hasHardCapacity. apply Z.ltb_lt. Qed.

Lemma hasHardCapacity_false :
  hasHardCapacity slot = false ↔ max (capacity slot) ≤ getTotalAllocated slot.
Proof. unfold hasHardCapacity. apply Z.ltb_ge. Qed.

(** Without hard capacity nothing is admitted, whatever the source. *)
Lemma canAllocateToken_full token :
  hasHardCapacity slot = false → canAllocateToken slot token = false.
Proof. intros H. unfold canAllocateToken. by rewrite H. Qed.

(** Capacity monotonicity: an admitted token found room below [max]. *)
Lemma canAllocateToken_hard token :
  canAllocateToken slot token = true → hasHardCapacity slot = true.
Proof.
  destruct (hasHardCapacity slot) eqn:E; [done|].
  by rewrite canAllocateToken_full.
Qed.

(** Safe integers are binary64 values: rounding leaves them alone. *)
Lemma round53_safe (z : Z) : Z.abs z < 2 ^ 53 → round53 z = z.
Proof. intros H. unfold round53. apply Z.ltb_lt in H. by rewrite H. Qed.

(** On safe capacities the general capacity that the code computes is
    [max - emergencyBuffer - priorityBuffer]. *)
Lemma generalCapacity_safe :
  safe_capacity slot →
  jsSub (max (capacity slot))
        (jsAdd (emergencyBuffer (capacity slot))
               (priorityBuffer (capacity slot)))
  = generalCapacity slot.
Proof.
  intros [Hsum Hdiff]. unfold jsSub, jsAdd, generalCapacity.
  rewrite (round53_safe _ Hsum), (round53_safe _ Hdiff). lia.
Qed.

(** The three branches of the [switch], read under hard capacity. *)
Lemma canAllocateToken_emergency token :
  safe_capacity slot →
  hasHardCapacity slot = true → source token = EMERGENCY →
  canAllocateToken slot token =
    canConsumeEmergencyBuffer slot
    || (getGeneralCount slot <? generalCapacity slot).
Proof.
  intros Hsafe Hh Hs. unfold canAllocateToken.
  rewrite Hh; simpl. rewrite decide_True by done.
  by rewrite generalCapacity_safe.
Qed.

Lemma canAllocateToken_priority token :
  safe_capacity slot →
  hasHardCapacity slot = true →
  source token = PRIORITY ∨ source token = FOLLOW_UP →
  canAllocateToken slot token =
    canConsumePriorityBuffer slot
    || (getGeneralCount slot <? generalCapacity slot).
Proof.
  intros Hsafe Hh Hs. unfold canAllocateToken.
  rewrite Hh; simpl.
  rewrite decide_False by (intros E; rewrite E in Hs; by destruct Hs).
  rewrite decide_True by done.
  by rewrite generalCapacity_safe.
Qed.

Lemma canAllocateToken_general token :
  safe_capacity slot →
  hasHardCapacity slot = true →
  source token = ONLINE ∨ source token = WALK_IN →
  canAllocateToken slot token =
    (getGeneralCount slot <? generalCapacity slot).
Proof.
  intros Hsafe Hh Hs. unfold canAllocateToken.
  rewrite Hh; simpl.
  rewrite decide_False by (intros E; rewrite E in Hs; by destruct Hs).
  rewrite decide_False
    by (intros [E|E]; rewrite E in Hs; by destruct Hs).
  rewrite decide_True by done.
  by rewrite generalCapacity_safe.
Qed.

Lemma canAllocateToken_unknown token :
  ¬ known_source (source token) → canAllocateToken slot token = false.
Proof.
  intros Hs. unfold canAllocateToken, known_source in *.
  destruct (negb (hasHardCapacity slot)); [done|].
  simpl. repeat case_decide; try done; exfalso; apply Hs; tauto.
Qed.
End Capacity.

(** C1 (as stated) fails in two ways.  At the hard maximum: the slot
    [full_by_overflow] is full, so the emergency token is refused
    although its buffer is exhausted and the general count is below the
    general capacity.  By rounding: with [max = 2^53 + 4] and buffers
    [1] and [2^53 + 2] the code's [emergencyBuffer + priorityBuffer]
    rounds to [2^53 + 4], its general capacity is [0], and the
    emergency token is refused although the slot is far below [max],
    the emergency buffer is exhausted and the general count [0] is
    below [max - emergencyBuffer - priorityBuffer = 1]. *)
Lemma overflow_law_fails_as_stated :
  (let slot := full_by_overflow in
   let token := createTestToken "e3" EMERGENCY EMERGENCY_LEVEL false in
   source token = EMERGENCY
   ∧ emergencyBuffer (capacity slot) ≤ getEmergencyCount slot
   ∧ getGeneralCount slot < generalCapacity slot
   ∧ canAllocateToken slot token = false)
  ∧ (let slot :=
       createTestSlot [createTestToken "e1" EMERGENCY EMERGENCY_LEVEL false]
                      [] (mkSlotCapacity (2 ^ 53 + 4) 1 (2 ^ 53 + 2)) in
     let token := createTestToken "e2" EMERGENCY EMERGENCY_LEVEL false in
     source token = EMERGENCY
     ∧ emergencyBuffer (capacity slot) ≤ getEmergencyCount slot
     ∧ getGeneralCount slot < generalCapacity slot
     ∧ getTotalAllocated slot < max (capacity slot)
     ∧ canAllocateToken slot token = false).
Proof. vm_compute. repeat split; congruence. Qed.

(** C1 (amended): on a slot with safe capacities (the reserved total
    and the general capacity below [2^53] in magnitude), for a token of
    the emergency class or of the priority class whose own buffer is
    exhausted while [generalCount < generalCapacity]
    ([generalCapacity = max - emergencyBuffer - priorityBuffer]),
    [canAllocateToken] returns true exactly when the slot is below its
    hard maximum. *)
Theorem overflow_law slot token :
  safe_capacity slot →
  (source token = EMERGENCY
     ∧ emergencyBuffer (capacity slot) ≤ getEmergencyCount slot)
  ∨ ((source token = PRIORITY ∨ source token = FOLLOW_UP)
     ∧ priorityBuffer (capacity slot) ≤ getPriorityCount slot) →
  getGeneralCount slot < generalCapacity slot →
  (canAllocateToken slot token = true
   ↔ getTotalAllocated slot < max (capacity slot)).
Proof.
  intros Hsafe Hclass Hgen. rewrite <- hasHardCapacity_true.
  split; [apply canAllocateToken_hard|]. intros Hh.
  apply Z.ltb_lt in Hgen.
  destruct Hclass as [[Hs _]|[Hs _]].
  - rewrite canAllocateToken_emergency by done.
    rewrite Hgen. apply orb_true_r.
  - rewrite canAllocateToken_priority by done.
    rewrite Hgen. apply orb_true_r.
Qed.

Lemma overflow_law_witness :
  let slot :=
    createTestSlot [createTestToken "e1" EMERGENCY EMERGENCY_LEVEL false] []
                   defaultCapacity in
  let token := createTestToken "e2" EMERGENCY EMERGENCY_LEVEL false in
  canAllocateToken slot token = true
  ↔ getTotalAllocated slot < max (capacity slot).
Proof.
  intros slot token. apply (overflow_law slot token).
  - split; vm_compute; reflexivity.
  - left. split; [reflexivity | vm_compute; congruence].
  - vm_compute. reflexivity.
Defined.

(** C5 (as stated) fails by rounding: with [max = 2^53 + 2] and buffers
    [2^53] and [1] the code's [emergencyBuffer + priorityBuffer] rounds
    to [2^53], its general capacity is [2], and a general token is
    admitted beside one general occupant, although the general count
    [1] is not below [max(0, max - emergencyBuffer - priorityBuffer)],
    which is [1]. *)
Lemma general_admission_fails_by_rounding :
  let slot :=
    createTestSlot [createTestToken "o" ONLINE MEDIUM true] []
                   (mkSlotCapacity (2 ^ 53 + 2) (2 ^ 53) 1) in
  let token := createTestToken "w" WALK_IN MEDIUM true in
  (source token = ONLINE ∨ source token = WALK_IN)
  ∧ canAllocateToken slot token = true
  ∧ ¬ (getTotalAllocated slot < max (capacity slot)
       ∧ getGeneralCount slot
         < Z.max 0 (max (capacity slot) - emergencyBuffer (capacity slot)
                      - priorityBuffer (capacity slot))).
Proof.
  cbv zeta. split; [by right|]. split; [vm_compute; reflexivity|].
  intros [_ H]. vm_compute in H. discriminate H.
Qed.

(** C5 (amended): on a slot with safe capacities (the reserved total
    and the general capacity below [2^53] in magnitude, so that the
    code computes them exactly) a general token (ONLINE or WALK_IN) is
    admitted exactly when the slot is below [max] and the general count
    is below the general capacity clamped at zero; when the buffers
    over-subscribe [max] it is never admitted.  [canAllocateToken] is a
    total function: no input raises. *)
Theorem general_admission slot token :
  safe_capacity slot →
  source token = ONLINE ∨ source token = WALK_IN →
  (canAllocateToken slot token = true
   ↔ getTotalAllocated slot < max (capacity slot)
     ∧ getGeneralCount slot
       < Z.max 0 (max (capacity slot) - emergencyBuffer (capacity slot)
                    - priorityBuffer (capacity slot)))
  ∧ (max (capacity slot)
       < emergencyBuffer (capacity slot) + priorityBuffer (capacity slot) →
     canAllocateToken slot token = false).
Proof.
  intros Hsafe Hs. pose proof (getGeneralCount_nonneg slot) as Hnn.
  fold (generalCapacity slot).
  assert (canAllocateToken slot token = true
          ↔ getTotalAllocated slot < max (capacity slot)
            ∧ getGeneralCount slot < generalCapacity slot) as Hiff.
  { rewrite <- hasHardCapacity_true. split.
    - intros H. pose proof (canAllocateToken_hard _ _ H) as Hh.
      rewrite canAllocateToken_general in H by done.
      by apply Z.ltb_lt in H.
    - intros [Hh Hg]. rewrite canAllocateToken_general by done.
      by apply Z.ltb_lt. }
  split.
  - rewrite Hiff. lia.
  - intros Hover. apply not_true_is_false. rewrite Hiff.
    unfold generalCapacity. lia.
Qed.

Lemma general_admission_witness :
  let slot := createTestSlot [] [] (mkSlotCapacity 2 2 1) in
  let token := createTestToken "w" WALK_IN HIGH true in
  canAllocateToken slot token = false.
Proof.
  intros slot token.
  apply (general_admission slot token).
  - split; vm_compute; reflexivity.
  - by right.
  - vm_compute. reflexivity.
Defined.

(** C10: admission looks at the token's source only; two tokens of equal
    source get the same answer on every slot. *)
Theorem admission_depends_on_source_only slot (t1 t2 : Token) :
  source t1 = source t2 →
  canAllocateToken slot t1 = canAllocateToken slot t2.
Proof. intros H. unfold canAllocateToken. by rewrite H. Qed.

Lemma admission_depends_on_source_only_witness :
  canAllocateToken (createTestSlot [] [] defaultCapacity)
                   (createTestToken "a" ONLINE LOW true)
  = canAllocateToken (createTestSlot [] [] defaultCapacity)
                     (createTestToken "b" ONLINE EMERGENCY_LEVEL false).
Proof. apply admission_depends_on_source_only. reflexivity. Defined.

(* ================================================================== *)
(** ** Allocation decision engine *)

(** A filtered list that splits around [x] comes from a list that splits
    around [x] the same way. *)
Lemma filter_split_inv (P : Token → Prop) `{!∀ t, Decision (P t)}
    (l l1 l2 : list Token) (x : Token) :
  filter P l = l1 ++ x :: l2 →
  ∃ k1 k2, l = k1 ++ x :: k2 ∧ filter P k1 = l1 ∧ filter P k2 = l2.
Proof.
  revert l1. induction l as [|a l IH]; intros l1 Hf.
  - by destruct l1.
  - rewrite filter_cons in Hf. destruct (decide (P a)) as [Ha|Ha].
    + destruct l1 as [|b l1]; simpl in Hf; injection Hf as Hhd Htl; subst.
      * exists [], l. by rewrite filter_nil.
      * destruct (IH _ Htl) as (k1 & k2 & -> & <- & <-).
        exists (b :: k1), k2. by rewrite filter_cons_True.
    + destruct (IH _ Hf) as (k1 & k2 & -> & <- & <-).
      exists (a :: k1), k2. by rewrite filter_cons_False.
Qed.

(** What the [for ... of] loop leaves in [lowestToken]: either the
    initial token, nothing in the list being strictly below it, or the
    first list element of minimum priority. *)
Lemma foldl_lower_spec (l : list Token) (a : Token) :
  let r := foldl lower a l in
  (r = a ∧ Forall (λ x, priority a ≤ priority x) l)
  ∨ (priority r < priority a
     ∧ ∃ l1 l2, l = l1 ++ r :: l2
         ∧ Forall (λ x, priority r < priority x) l1
         ∧ Forall (λ x, priority r ≤ priority x) l2).
Proof.
  revert a. induction l as [|b l IH]; intros a; simpl.
  - left. by split.
  - destruct (Z.ltb_spec (priority b) (priority a)) as [Hlt|Hge].
    + assert (lower a b = b) as ->
        by (unfold lower; apply Z.ltb_lt in Hlt; by rewrite Hlt).
      right. destruct (IH b) as [[-> Hall]|(Hr & l1 & l2 & Hl & H1 & H2)].
      * split; [done|]. exists [], l. repeat split; [constructor | done].
      * split; [lia|]. exists (b :: l1), l2. rewrite Hl at 1.
        repeat split; [|done]. constructor; [lia | done].
    + assert (lower a b = a) as ->
        by (unfold lower; apply Z.ltb_ge in Hge; by rewrite Hge).
      destruct (IH a) as [[-> Hall]|(Hr & l1 & l2 & Hl & H1 & H2)].
      * left. split; [done|]. by constructor.
      * right. split; [done|]. exists (b :: l1), l2. rewrite Hl at 1.
        repeat split; [|done]. constructor; [lia | done].
Qed.

Lemma lower_same (a : Token) : lower a a = a.
Proof. unfold lower. by rewrite Z.ltb_irrefl. Qed.

(** The displacement candidate: an eligible occupant, strictly below
    every eligible occupant before it and not above any after it. *)
Lemma findLowestPriorityMovableToken_Some slot d :
  findLowestPriorityMovableToken slot = Some d →
  ∃ l1 l2, tokens slot = l1 ++ d :: l2
    ∧ eligible d
    ∧ (∀ x, x ∈ l1 → eligible x → priority d < priority x)
    ∧ (∀ x, x ∈ l2 → eligible x → priority d ≤ priority x).
Proof.
  unfold findLowestPriorityMovableToken.
  destruct (filter eligible (tokens slot)) as [|first rest] eqn:Hf; [done|].
  simpl. rewrite lower_same. intros [= <-].
  assert (∃ e1 e2, first :: rest = e1 ++ foldl lower first rest :: e2
            ∧ Forall (λ x, priority (foldl lower first rest) < priority x) e1
            ∧ Forall (λ x, priority (foldl lower first rest) ≤ priority x) e2)
    as (e1 & e2 & Hsplit & He1 & He2).
  { destruct (foldl_lower_spec rest first) as [[Hr Hall]|(Hr & l1 & l2 & Hl & H1 & H2)].
    - exists [], rest. rewrite Hr. repeat split; [constructor | done].
    - exists (first :: l1), l2. rewrite Hl at 1.
      repeat split; [|done]. constructor; [lia | done]. }
  rewrite Hsplit in Hf.
  destruct (filter_split_inv _ _ _ _ _ Hf) as (k1 & k2 & Hk & Hk1 & Hk2).
  exists k1, k2. split; [done|]. split; [|split].
  - assert (foldl lower first rest ∈ filter eligible (tokens slot)) as Hin.
    { rewrite Hf. apply elem_of_app. right. apply elem_of_cons. by left. }
    by apply list_elem_of_filter in Hin as [? _].
  - intros x Hx Hel. rewrite Forall_forall in He1. apply He1.
    rewrite <- Hk1. by apply list_elem_of_filter.
  - intros x Hx Hel. rewrite Forall_forall in He2. apply He2.
    rewrite <- Hk2. by apply list_elem_of_filter.
Qed.

Lemma findLowestPriorityMovableToken_None slot :
  findLowestPriorityMovableToken slot = None ↔
  ∀ x, x ∈ tokens slot → ¬ eligible x.
Proof.
  unfold findLowestPriorityMovableToken.
  destruct (filter eligible (tokens slot)) as [|first rest] eqn:Hf.
  - split; [|done]. intros _ x Hx Hel.
    by apply (filter_nil_not_elem_of eligible _ x Hf Hel).
  - split; [done|]. intros Hno. exfalso.
    assert (first ∈ filter eligible (tokens slot)) as Hin
      by (rewrite Hf; apply elem_of_cons; by left).
    apply list_elem_of_filter in Hin as [Hel Hin]. by eapply Hno.
Qed.

(** The four outcomes, each with the test that selects it. *)
Lemma allocateTokenToSlot_status slot token :
  let r := allocateTokenToSlot slot token in
  (result_status r = ALLOCATED ∧ canAllocateToken slot token = true)
  ∨ (result_status r = DISPLACED ∧ canAllocateToken slot token = false
     ∧ ∃ d, findLowestPriorityMovableToken slot = Some d
            ∧ displacedToken r = Some d ∧ priority d < priority token)
  ∨ (canAllocateToken slot token = false
     ∧ (∀ d, findLowestPriorityMovableToken slot = Some d →
             priority token ≤ priority d)
     ∧ r = waitlistOrReject token).
Proof.
  unfold allocateTokenToSlot.
  destruct (canAllocateToken slot token); simpl; [by left|]. right.
  destruct (findLowestPriorityMovableToken slot) as [d|]; simpl.
  - destruct (Z.ltb_spec (priority d) (priority token)); simpl.
    + left. repeat split. by exists d.
    + right. repeat split. by intros ? [= <-].
  - right. by repeat split.
Qed.

Lemma waitlistOrReject_status token :
  result_status (waitlistOrReject token) = WAITLISTED
  ∨ result_status (waitlistOrReject token) = REJECTED.
Proof. unfold waitlistOrReject. destruct (MEDIUM <=? priority token); auto. Qed.

(** C3: a DISPLACED decision names an occupant that is movable and not
    of source EMERGENCY, whose priority is the least among the movable
    non-emergency occupants (the first such occupant on ties) and is
    strictly below the incoming token's. *)
Theorem displacement_safety slot token :
  result_status (allocateTokenToSlot slot token) = DISPLACED →
  ∃ d l1 l2,
    displacedToken (allocateTokenToSlot slot token) = Some d
    ∧ tokens slot = l1 ++ d :: l2
    ∧ movable d = true ∧ source d ≠ EMERGENCY
    ∧ (∀ x, x ∈ tokens slot → movable x = true → source x ≠ EMERGENCY →
            priority d ≤ priority x)
    ∧ (∀ x, x ∈ l1 → movable x = true → source x ≠ EMERGENCY →
            priority d < priority x)
    ∧ priority d < priority token.
Proof.
  intros Hst.
  destruct (allocateTokenToSlot_status slot token)
    as [[H _]|[(_ & _ & d & Hd & Hdis & Hlt)|(_ & _ & H)]].
  - congruence.
  - destruct (findLowestPriorityMovableToken_Some _ _ Hd)
      as (l1 & l2 & Hsplit & [Hm Hs] & H1 & H2).
    exists d, l1, l2. repeat split; try done.
    + intros x Hx Hxm Hxs. rewrite Hsplit in Hx.
      apply elem_of_app in Hx as [Hx|Hx].
      * apply Z.lt_le_incl. by apply H1.
      * apply elem_of_cons in Hx as [->|Hx]; [lia|]. by apply H2.
    + intros x Hx Hxm Hxs. by apply H1.
  - rewrite H in Hst. destruct (waitlistOrReject_status token); congruence.
Qed.

Lemma displacement_safety_witness :
  let slot :=
    createTestSlot [ createTestToken "a" ONLINE MEDIUM true;
                     createTestToken "b" ONLINE LOW true;
                     createTestToken "c" WALK_IN LOW true ]
                   [] defaultCapacity in
  let token := createTestToken "n" WALK_IN HIGH true in
  ∃ d l1 l2,
    displacedToken (allocateTokenToSlot slot token) = Some d
    ∧ tokens slot = l1 ++ d :: l2
    ∧ movable d = true ∧ source d ≠ EMERGENCY
    ∧ (∀ x, x ∈ tokens slot → movable x = true → source x ≠ EMERGENCY →
            priority d ≤ priority x)
    ∧ (∀ x, x ∈ l1 → movable x = true → source x ≠ EMERGENCY →
            priority d < priority x)
    ∧ priority d < priority token.
Proof.
  intros slot token. apply (displacement_safety slot token).
  vm_compute. reflexivity.
Defined.

(** C9: when the token is not admitted and no displacement takes place
    (no candidate, or a candidate whose priority is not strictly below
    the token's), the decision is WAITLISTED from priority 40 (MEDIUM)
    upwards and REJECTED below. *)
Theorem waitlist_threshold slot token :
  canAllocateToken slot token = false →
  (findLowestPriorityMovableToken slot = None
   ∨ ∃ d, findLowestPriorityMovableToken slot = Some d
          ∧ ¬ priority d < priority token) →
  result_status (allocateTokenToSlot slot token)
    = (if 40 <=? priority token then WAITLISTED else REJECTED)
  ∧ (40 ≤ priority token →
     allocatedToken (allocateTokenToSlot slot token) = Some token).
Proof.
  intros Hc Hlow. unfold allocateTokenToSlot. rewrite Hc.
  assert (result_status (waitlistOrReject token)
            = (if 40 <=? priority token then WAITLISTED else REJECTED)
          ∧ (40 ≤ priority token →
             allocatedToken (waitlistOrReject token) = Some token)) as Hw.
  { unfold waitlistOrReject, MEDIUM.
    destruct (Z.leb_spec 40 (priority token)); simpl; split; [done|done|done|lia]. }
  destruct Hlow as [->|(d & -> & Hd)]; simpl; [done|].
  by destruct (Z.ltb_spec (priority d) (priority token)).
Qed.

Lemma waitlist_threshold_witness :
  let slot :=
    createTestSlot [createTestToken "e" EMERGENCY EMERGENCY_LEVEL true] []
                   (mkSlotCapacity 1 1 0) in
  let token := createTestToken "n" ONLINE MEDIUM true in
  result_status (allocateTokenToSlot slot token)
    = (if 40 <=? priority token then WAITLISTED else REJECTED)
  ∧ (40 ≤ priority token →
     allocatedToken (allocateTokenToSlot slot token) = Some token).
Proof.
  intros slot token. apply (waitlist_threshold slot token).
  - vm_compute. reflexivity.
  - left. vm_compute. reflexivity.
Defined.

(** C6 (as stated) fails: a token of an unknown source is never
    admitted directly, yet the displacement step does not look at the
    source, so the decision can be DISPLACED. *)
Lemma unknown_source_can_displace :
  let slot :=
    createTestSlot [createTestToken "o1" ONLINE LOW true] []
                   (mkSlotCapacity 1 0 0) in
  let token := createTestToken "x" "VIP" HIGH true in
  ¬ known_source (source token)
  ∧ canAllocateToken slot token = false
  ∧ result_status (allocateTokenToSlot slot token) = DISPLACED.
Proof.
  simpl. split; [|split; vm_compute; reflexivity].
  unfold known_source. simpl. intros [H|[H|[H|[H|H]]]]; discriminate H.
Qed.

(** A displacement candidate strictly below a priority exists exactly
    when some movable occupant of a source other than EMERGENCY has a
    priority strictly below it. *)
Lemma candidate_below_iff slot (p : Z) :
  (∃ d, findLowestPriorityMovableToken slot = Some d ∧ priority d < p)
  ↔ ∃ x, x ∈ tokens slot ∧ movable x = true ∧ source x ≠ EMERGENCY
         ∧ priority x < p.
Proof.
  split.
  - intros (d & Hd & Hlt).
    destruct (findLowestPriorityMovableToken_Some _ _ Hd)
      as (l1 & l2 & Hsplit & [Hm Hs] & _).
    exists d. split_and!; try done.
    rewrite Hsplit. apply elem_of_app. right. apply elem_of_cons. by left.
  - intros (x & Hx & Hm & Hs & Hlt).
    destruct (findLowestPriorityMovableToken slot) as [d|] eqn:Hd.
    + exists d. split; [done|].
      destruct (findLowestPriorityMovableToken_Some _ _ Hd)
        as (l1 & l2 & Hsplit & _ & H1 & H2).
      rewrite Hsplit in Hx. apply elem_of_app in Hx as [Hx|Hx].
      * specialize (H1 x Hx (conj Hm Hs)). lia.
      * apply elem_of_cons in Hx as [->|Hx]; [done|].
        specialize (H2 x Hx (conj Hm Hs)). lia.
    + exfalso.
      apply (proj1 (findLowestPriorityMovableToken_None slot) Hd x Hx).
      by split.
Qed.

(** C6 (amended): for a token of an unknown source [canAllocateToken]
    returns false and the decision is never ALLOCATED; it is DISPLACED
    exactly when some occupant is movable, of a source other than
    EMERGENCY, and of a priority strictly below the token's; otherwise
    it is WAITLISTED from priority 40 upwards and REJECTED below. *)
Theorem unknown_source_decision slot token :
  ¬ known_source (source token) →
  canAllocateToken slot token = false
  ∧ result_status (allocateTokenToSlot slot token) ≠ ALLOCATED
  ∧ (result_status (allocateTokenToSlot slot token) = DISPLACED
     ↔ ∃ x, x ∈ tokens slot ∧ movable x = true ∧ source x ≠ EMERGENCY
            ∧ priority x < priority token)
  ∧ (result_status (allocateTokenToSlot slot token) ≠ DISPLACED →
     result_status (allocateTokenToSlot slot token)
     = if 40 <=? priority token then WAITLISTED else REJECTED).
Proof.
  intros Hs. pose proof (canAllocateToken_unknown slot token Hs) as Hc.
  split; [done|]. rewrite <- candidate_below_iff.
  destruct (allocateTokenToSlot_status slot token)
    as [[_ H]|[(Hst & _ & d & Hd & _ & Hlt)|(_ & Hno & Hr)]].
  - congruence.
  - rewrite Hst. split_and!; try done. split; [|done]. by exists d.
  - rewrite Hr. unfold waitlistOrReject, MEDIUM.
    destruct (Z.leb_spec 40 (priority token)); simpl.
    + split_and!; try done. split; [done|].
      intros (d & Hd & Hlt). specialize (Hno _ Hd). lia.
    + split_and!; try done. split; [done|].
      intros (d & Hd & Hlt). specialize (Hno _ Hd). lia.
Qed.

Lemma unknown_source_decision_witness :
  let slot :=
    createTestSlot [createTestToken "o1" ONLINE LOW true] []
                   defaultCapacity in
  let token := createTestToken "x" "VIP" HIGH true in
  canAllocateToken slot token = false
  ∧ result_status (allocateTokenToSlot slot token) ≠ ALLOCATED
  ∧ (result_status (allocateTokenToSlot slot token) = DISPLACED
     ↔ ∃ x, x ∈ tokens slot ∧ movable x = true ∧ source x ≠ EMERGENCY
            ∧ priority x < priority token)
  ∧ (result_status (allocateTokenToSlot slot token) ≠ DISPLACED →
     result_status (allocateTokenToSlot slot token)
     = if 40 <=? priority token then WAITLISTED else REJECTED).
Proof.
  intros slot token. apply (unknown_source_decision slot token).
  unfold known_source. simpl. intros [H|[H|[H|[H|H]]]]; discriminate H.
Defined.

(* ================================================================== *)
(** ** State mutator *)

Lemma set_tokens_same slot : set_tokens slot (tokens slot) = slot.
Proof. by destruct slot. Qed.

(** *** [findIndex] and [removeTokenById] *)

Lemma findIndex_from_spec (p : Token → bool) (l : list Token) (i : Z) :
  0 ≤ i →
  (findIndex_from p l i = -1 ∧ Forall (λ t, p t = false) l)
  ∨ (∃ l1 x l2, l = l1 ++ x :: l2
       ∧ Forall (λ t, p t = false) l1 ∧ p x = true
       ∧ findIndex_from p l i = i + Z.of_nat (length l1)).
Proof.
  revert i. induction l as [|a l IH]; intros i Hi; simpl.
  - left. by split.
  - destruct (p a) eqn:Ha.
    + right. exists [], a, l. simpl. repeat split; [constructor | done | lia].
    + destruct (IH (i + 1)) as [[H1 H2]|(l1 & x & l2 & -> & H1 & H2 & H3)];
        [lia| |].
      * left. split; [done|]. by constructor.
      * right. exists (a :: l1), x, l2. simpl.
        repeat split; [by constructor | done | lia].
Qed.

(** Either no occupant carries the identifier and nothing changes, or
    the first occupant that carries it is taken out and returned. *)
Lemma removeTokenById_cases (ts : list Token) (tokenId : string) :
  ((∀ t, t ∈ ts → id t ≠ tokenId)
   ∧ removeTokenById ts tokenId = (None, ts))
  ∨ (∃ t1 c t2, ts = t1 ++ c :: t2
       ∧ (∀ t, t ∈ t1 → id t ≠ tokenId) ∧ id c = tokenId
       ∧ removeTokenById ts tokenId = (Some c, t1 ++ t2)).
Proof.
  unfold removeTokenById, findIndex.
  destruct (findIndex_from_spec (λ t, bool_decide (id t = tokenId)) ts 0)
    as [[-> Hall]|(t1 & c & t2 & -> & Hall & Hc & ->)]; [lia| |].
  - left. simpl. split; [|done]. intros t Ht.
    rewrite Forall_forall in Hall. specialize (Hall t Ht).
    by apply bool_decide_eq_false in Hall.
  - right. exists t1, c, t2.
    replace (0 + Z.of_nat (length t1) =? -1) with false
      by (symmetry; apply Z.eqb_neq; lia).
    rewrite Z.add_0_l, Nat2Z.id, list_lookup_middle, delete_middle by done.
    repeat split; [|by apply bool_decide_eq_true in Hc].
    intros t Ht. rewrite Forall_forall in Hall. specialize (Hall t Ht).
    by apply bool_decide_eq_false in Hall.
Qed.

Lemma removeTokenById_absent (ts : list Token) (tokenId : string) :
  (∀ t, t ∈ ts → id t ≠ tokenId) → removeTokenById ts tokenId = (None, ts).
Proof.
  intros Habs.
  destruct (removeTokenById_cases ts tokenId)
    as [[_ H]|(t1 & c & t2 & -> & _ & Hc & _)]; [done|].
  exfalso. apply (Habs c); [|done].
  apply elem_of_app. right. apply elem_of_cons. by left.
Qed.

Lemma removeTokenById_present (ts : list Token) (tokenId : string) :
  (∃ t, t ∈ ts ∧ id t = tokenId) →
  ∃ t1 c t2, ts = t1 ++ c :: t2
    ∧ (∀ t, t ∈ t1 → id t ≠ tokenId) ∧ id c = tokenId
    ∧ removeTokenById ts tokenId = (Some c, t1 ++ t2).
Proof.
  intros (t & Ht & Hid).
  destruct (removeTokenById_cases ts tokenId) as [[Habs _]|H]; [|done].
  by destruct (Habs t Ht).
Qed.

(** *** [findHighestPriorityIndex] *)

(** Loop invariant after the turns [i = 1 .. k]: [highestIndex] points
    inside the part already seen, at an entry that is strictly above all
    entries before it and not below any entry seen after it. *)
Lemma higher_loop_invariant (wl : list Token) (k : nat) :
  (1 + k ≤ length wl)%nat →
  (foldl (higher wl) 0%nat (seq 1 k) < 1 + k)%nat
  ∧ ∃ w, wl !! foldl (higher wl) 0%nat (seq 1 k) = Some w
     ∧ (∀ j x, (j < foldl (higher wl) 0%nat (seq 1 k))%nat →
               wl !! j = Some x → priority x < priority w)
     ∧ (∀ j x, (foldl (higher wl) 0%nat (seq 1 k) < j < 1 + k)%nat →
               wl !! j = Some x → priority x ≤ priority w).
Proof.
  induction k as [|k IH]; intros Hlen.
  - simpl. split; [lia|].
    destruct (lookup_lt_is_Some_2 wl 0) as [w Hw]; [lia|].
    exists w. repeat split; [done | intros; lia | intros; lia].
  - rewrite seq_S, foldl_app.
    destruct IH as (Hh & w & Hw & Hlo & Hhi); [lia|].
    set (h := foldl (higher wl) 0%nat (seq 1 k)) in *.
    destruct (lookup_lt_is_Some_2 wl (1 + k)) as [wi Hwi]; [lia|].
    cbn [foldl]. unfold higher. rewrite Hwi, Hw.
    destruct (Z.ltb_spec (priority w) (priority wi)) as [Hlt|Hge].
    + split; [lia|]. exists wi. repeat split; [done| |intros; lia].
      intros j x Hj Hx.
      destruct (decide (j < h)%nat) as [Hjh|Hjh].
      { specialize (Hlo _ _ Hjh Hx). lia. }
      destruct (decide (j = h)) as [->|Hne]; [simplify_eq; lia|].
      assert (h < j < 1 + k)%nat as Hb by lia.
      specialize (Hhi _ _ Hb Hx). lia.
    + split; [lia|]. exists w. repeat split; [done|done|].
      intros j x Hj Hx.
      destruct (decide (j = 1 + k)%nat) as [->|Hne]; [simplify_eq; lia|].
      apply (Hhi j x); [lia | done].
Qed.

Lemma findHighestPriorityIndex_nil : findHighestPriorityIndex [] = -1.
Proof. reflexivity. Qed.

(** The index found splits the waitlist around its first entry of
    maximum priority. *)
Lemma findHighestPriorityIndex_spec (wl : list Token) :
  wl ≠ [] →
  ∃ l1 w l2, wl = l1 ++ w :: l2
    ∧ findHighestPriorityIndex wl = Z.of_nat (length l1)
    ∧ (∀ x, x ∈ l1 → priority x < priority w)
    ∧ (∀ x, x ∈ l2 → priority x ≤ priority w).
Proof.
  intros Hne. unfold findHighestPriorityIndex.
  assert (0 < length wl)%nat as Hpos by (destruct wl; [done | simpl; lia]).
  replace (length wl =? 0)%nat with false
    by (symmetry; apply Nat.eqb_neq; lia).
  destruct (higher_loop_invariant wl (length wl - 1))
    as (Hh & w & Hw & Hlo & Hhi); [lia|].
  set (h := foldl (higher wl) 0%nat (seq 1 (length wl - 1))) in *.
  exists (take h wl), w, (drop (S h) wl).
  split; [by rewrite take_drop_middle|]. split; [|split].
  - rewrite length_take_le; [done|]. lia.
  - intros x Hx. apply list_elem_of_lookup in Hx as [j Hj].
    apply lookup_take_Some in Hj as [Hj Hlt]. by eapply Hlo.
  - intros x Hx. apply list_elem_of_lookup in Hx as [j Hj].
    rewrite lookup_drop in Hj. eapply Hhi; [|done].
    apply lookup_lt_Some in Hj. lia.
Qed.

(** *** [promoteFromWaitlist], [cancelToken], [markNoShow] *)

Lemma promoteFromWaitlist_nil slot :
  waitlist slot = [] → promoteFromWaitlist slot = slot.
Proof. intros H. unfold promoteFromWaitlist. by rewrite H. Qed.

Lemma promoteFromWaitlist_spec slot :
  waitlist slot ≠ [] →
  ∃ l1 w l2, waitlist slot = l1 ++ w :: l2
    ∧ (∀ x, x ∈ l1 → priority x < priority w)
    ∧ (∀ x, x ∈ l2 → priority x ≤ priority w)
    ∧ promoteFromWaitlist slot
      = set_tokens (set_waitlist slot (l1 ++ l2)) (tokens slot ++ [w]).
Proof.
  intros Hne.
  destruct (findHighestPriorityIndex_spec _ Hne)
    as (l1 & w & l2 & Hw & Hidx & H1 & H2).
  exists l1, w, l2. repeat split; try done.
  unfold promoteFromWaitlist. rewrite Hidx.
  replace (Z.of_nat (length l1) =? -1) with false
    by (symmetry; apply Z.eqb_neq; lia).
  rewrite Nat2Z.id, Hw, list_lookup_middle, delete_middle by done.
  reflexivity.
Qed.

(** C7: when the identifier is among the occupants and the waitlist is
    not empty, [cancelToken] (and [markNoShow]) take the first occupant
    with that identifier out and append to the occupants the waitlist
    entry of maximum priority, the one nearest the front on ties; that
    entry leaves the waitlist, the rest of which keeps its order. *)
Theorem promotion_correctness slot tokenId :
  (∃ t, t ∈ tokens slot ∧ id t = tokenId) →
  waitlist slot ≠ [] →
  ∃ t1 c t2 l1 w l2,
    tokens slot = t1 ++ c :: t2
    ∧ id c = tokenId ∧ (∀ x, x ∈ t1 → id x ≠ tokenId)
    ∧ waitlist slot = l1 ++ w :: l2
    ∧ (∀ x, x ∈ l1 → priority x < priority w)
    ∧ (∀ x, x ∈ l2 → priority x ≤ priority w)
    ∧ tokens (cancelToken slot tokenId) = t1 ++ t2 ++ [w]
    ∧ waitlist (cancelToken slot tokenId) = l1 ++ l2
    ∧ markNoShow slot tokenId = cancelToken slot tokenId.
Proof.
  intros Hin Hne.
  destruct (removeTokenById_present _ _ Hin)
    as (t1 & c & t2 & Ht & Ht1 & Hc & Hrm).
  assert (waitlist (set_tokens slot (t1 ++ t2)) ≠ []) as Hne' by done.
  destruct (promoteFromWaitlist_spec _ Hne')
    as (l1 & w & l2 & Hw & H1 & H2 & Hpr).
  exists t1, c, t2, l1, w, l2.
  unfold markNoShow, cancelToken. rewrite Hrm. simpl. rewrite Hpr. simpl.
  repeat split; try done. by rewrite <- app_assoc.
Qed.

Lemma promotion_correctness_witness :
  let slot :=
    createTestSlot [createTestToken "active" ONLINE MEDIUM true]
                   [ createTestToken "wait-low" WALK_IN LOW true;
                     createTestToken "wait-high" WALK_IN HIGH true ]
                   defaultCapacity in
  ∃ t1 c t2 l1 w l2,
    tokens slot = t1 ++ c :: t2
    ∧ id c = "active" ∧ (∀ x, x ∈ t1 → id x ≠ "active")
    ∧ waitlist slot = l1 ++ w :: l2
    ∧ (∀ x, x ∈ l1 → priority x < priority w)
    ∧ (∀ x, x ∈ l2 → priority x ≤ priority w)
    ∧ tokens (cancelToken slot "active") = t1 ++ t2 ++ [w]
    ∧ waitlist (cancelToken slot "active") = l1 ++ l2
    ∧ markNoShow slot "active" = cancelToken slot "active".
Proof.
  intros slot. apply (promotion_correctness slot "active").
  - exists (createTestToken "active" ONLINE MEDIUM true).
    split; [apply elem_of_cons; by left | reflexivity].
  - simpl. discriminate.
Defined.

(** C8: an identifier that no occupant carries (one that only a
    waitlisted token carries included) makes [cancelToken] and
    [markNoShow] return the slot as it was: no removal, no promotion,
    the waitlist untouched; and [markNoShow] equals [cancelToken] on
    every input. *)
Theorem cancel_absent_is_noop slot tokenId :
  markNoShow slot tokenId = cancelToken slot tokenId
  ∧ ((∀ t, t ∈ tokens slot → id t ≠ tokenId) →
     cancelToken slot tokenId = slot ∧ markNoShow slot tokenId = slot).
Proof.
  split; [done|]. intros Habs. unfold markNoShow, cancelToken.
  rewrite removeTokenById_absent by done. simpl.
  by rewrite set_tokens_same.
Qed.

Lemma cancel_absent_is_noop_witness :
  let slot :=
    createTestSlot [createTestToken "active" ONLINE MEDIUM true]
                   [createTestToken "wait" WALK_IN HIGH true]
                   defaultCapacity in
  cancelToken slot "wait" = slot ∧ markNoShow slot "wait" = slot.
Proof.
  intros slot. apply (cancel_absent_is_noop slot "wait").
  intros t Ht. apply list_elem_of_singleton in Ht. subst t.
  simpl. discriminate.
Defined.

(* ================================================================== *)
(** ** Slot invariants *)

Lemma capacity_applyAllocationResult slot r :
  capacity (applyAllocationResult slot r) = capacity slot.
Proof.
  unfold applyAllocationResult.
  by destruct (result_status r), (allocatedToken r), (displacedToken r).
Qed.

Lemma capacity_promoteFromWaitlist slot :
  capacity (promoteFromWaitlist slot) = capacity slot.
Proof.
  unfold promoteFromWaitlist.
  destruct (_ =? _); [done|]. by destruct (_ !! _).
Qed.

Lemma capacity_cancelToken slot tokenId :
  capacity (cancelToken slot tokenId) = capacity slot.
Proof.
  unfold cancelToken. destruct (removeTokenById _ _).1; [|done].
  by rewrite capacity_promoteFromWaitlist.
Qed.

(** Promotion adds at most one occupant. *)
Lemma length_promoteFromWaitlist slot :
  (length (tokens (promoteFromWaitlist slot)) ≤ S (length (tokens slot)))%nat.
Proof.
  unfold promoteFromWaitlist.
  destruct (_ =? _); [lia|]. destruct (_ !! _); [|lia].
  simpl. rewrite length_app. simpl. lia.
Qed.

(** A cancellation never leaves more occupants than it found. *)
Lemma length_cancelToken slot tokenId :
  (length (tokens (cancelToken slot tokenId)) ≤ length (tokens slot))%nat.
Proof.
  unfold cancelToken.
  destruct (removeTokenById_cases (tokens slot) tokenId)
    as [[_ ->]|(t1 & c & t2 & Ht & _ & _ & ->)]; simpl; [done|].
  etrans; [apply length_promoteFromWaitlist|].
  simpl. rewrite Ht, !length_app. simpl. lia.
Qed.

(** Applying the decision just taken on the slot adds an occupant only
    below [max]; a displacement swaps one occupant for another. *)
Lemma length_createToken slot token :
  let n := length (tokens (createToken slot token)) in
  (n = length (tokens slot)
   ∨ (n = S (length (tokens slot)) ∧ hasHardCapacity slot = true)).
Proof.
  unfold createToken, allocateTokenToSlot.
  destruct (canAllocateToken slot token) eqn:Hc; simpl.
  - right. unfold applyAllocationResult. simpl.
    rewrite length_app. simpl.
    split; [lia | by eapply canAllocateToken_hard].
  - left. destruct (findLowestPriorityMovableToken slot) as [d|] eqn:Hd.
    + destruct (priority d <? priority token).
      * unfold applyAllocationResult. simpl.
        destruct (findLowestPriorityMovableToken_Some _ _ Hd)
          as (l1 & l2 & Hsplit & _).
        destruct (removeTokenById_present (tokens slot) (id d))
          as (t1 & c & t2 & Ht & _ & _ & ->).
        { exists d. split; [|done]. rewrite Hsplit.
          apply elem_of_app. right. apply elem_of_cons. by left. }
        simpl. rewrite Ht, !length_app. simpl. lia.
      * unfold waitlistOrReject, applyAllocationResult.
        by destruct (MEDIUM <=? priority token).
    + unfold waitlistOrReject, applyAllocationResult.
      by destruct (MEDIUM <=? priority token).
Qed.

Lemma within_max_cancelToken slot tokenId :
  within_max slot → within_max (cancelToken slot tokenId).
Proof.
  unfold within_max, getTotalAllocated. intros Hb.
  rewrite capacity_cancelToken.
  pose proof (length_cancelToken slot tokenId). lia.
Qed.

Lemma within_max_createToken slot token :
  within_max slot → within_max (createToken slot token).
Proof.
  unfold within_max, getTotalAllocated. intros Hb.
  unfold createToken at 2. rewrite capacity_applyAllocationResult.
  destruct (length_createToken slot token) as [Hn|[Hn Hh]];
    rewrite Hn; [done|].
  apply hasHardCapacity_true in Hh. unfold getTotalAllocated in Hh. lia.
Qed.

(** C4: a slot that holds at most [max] occupants still does after
    applying the decision that [allocateTokenToSlot] takes on its
    current state, and after any [cancelToken] or [markNoShow]. *)
Theorem occupancy_bound slot :
  within_max slot →
  (∀ token,
     within_max (applyAllocationResult slot (allocateTokenToSlot slot token)))
  ∧ (∀ tokenId, within_max (cancelToken slot tokenId))
  ∧ (∀ tokenId, within_max (markNoShow slot tokenId)).
Proof.
  intros Hb. split; [|split].
  - intros token. by apply within_max_createToken.
  - intros tokenId. by apply within_max_cancelToken.
  - intros tokenId. by apply within_max_cancelToken.
Qed.

Lemma occupancy_bound_witness :
  let slot :=
    createTestSlot [createTestToken "o1" ONLINE LOW true]
                   [createTestToken "w1" WALK_IN HIGH true]
                   (mkSlotCapacity 1 0 0) in
  (∀ token,
     within_max (applyAllocationResult slot (allocateTokenToSlot slot token)))
  ∧ (∀ tokenId, within_max (cancelToken slot tokenId))
  ∧ (∀ tokenId, within_max (markNoShow slot tokenId)).
Proof.
  intros slot. apply (occupancy_bound slot).
  unfold within_max. vm_compute. congruence.
Defined.

(** X27: the bound along a whole history of requests, each handled the
    way the controllers do (a submission is decided, then applied
    once): a slot that starts within [max] is within [max] after any
    sequence of submissions, cancellations and no-shows. *)
Lemma within_max_history (reqs : list Request) slot :
  within_max slot → within_max (foldl handle slot reqs).
Proof.
  revert slot. induction reqs as [|req reqs IH]; intros slot Hb; [done|].
  simpl. apply IH. destruct req; simpl.
  - by apply within_max_createToken.
  - by apply within_max_cancelToken.
  - by apply within_max_cancelToken.
Qed.

(** *** No duplicate identifiers *)

(** Pushes [<$>] through appends and conses. *)
Ltac list_fmap_normal := repeat (rewrite ?fmap_app, ?fmap_cons; simpl).

(** A cancellation leaves the identifiers as they were or takes exactly
    one of them away. *)
Lemma ids_cancelToken slot tokenId :
  ids (cancelToken slot tokenId) = ids slot
  ∨ tokenId :: ids (cancelToken slot tokenId) ≡ₚ ids slot.
Proof.
  unfold cancelToken.
  destruct (removeTokenById_cases (tokens slot) tokenId)
    as [[_ ->]|(t1 & c & t2 & Ht & _ & Hc & ->)]; simpl.
  - left. by rewrite set_tokens_same.
  - right. subst tokenId.
    destruct (waitlist slot) as [|a wl] eqn:Hwl.
    + rewrite promoteFromWaitlist_nil by done.
      unfold ids. simpl. rewrite Ht, Hwl. list_fmap_normal.
      solve_Permutation.
    + destruct (promoteFromWaitlist_spec (set_tokens slot (t1 ++ t2)))
        as (l1 & w & l2 & Hw & _ & _ & ->).
      { simpl. by rewrite Hwl. }
      simpl in Hw. rewrite Hwl in Hw.
      unfold ids. simpl. rewrite Ht, Hwl, Hw. list_fmap_normal.
      solve_Permutation.
Qed.

Lemma NoDup_cancelToken slot tokenId :
  NoDup (ids slot) → NoDup (ids (cancelToken slot tokenId)).
Proof.
  intros Hnd. destruct (ids_cancelToken slot tokenId) as [->|Hp]; [done|].
  rewrite <- Hp in Hnd. by apply NoDup_cons in Hnd as [_ ?].
Qed.

Lemma NoDup_applyAllocationResult slot r :
  NoDup (ids slot) → fresh_result slot r →
  NoDup (ids (applyAllocationResult slot r)).
Proof.
  intros Hnd Hfresh. unfold fresh_result in Hfresh.
  unfold applyAllocationResult.
  destruct (result_status r); [| | done |].
  - destruct (allocatedToken r) as [t|]; [|done].
    specialize (Hfresh t eq_refl).
    assert (ids (set_tokens slot (tokens slot ++ [t])) ≡ₚ id t :: ids slot)
      as ->.
    { unfold ids. simpl. list_fmap_normal. solve_Permutation. }
    by apply NoDup_cons.
  - destruct (allocatedToken r) as [t|]; [|done].
    specialize (Hfresh t eq_refl).
    assert (ids (set_waitlist slot (waitlist slot ++ [t])) ≡ₚ id t :: ids slot)
      as ->.
    { unfold ids. simpl. list_fmap_normal. solve_Permutation. }
    by apply NoDup_cons.
  - destruct (displacedToken r) as [d|]; [|done].
    destruct (allocatedToken r) as [t|]; [|done].
    destruct (Hfresh t d eq_refl eq_refl) as (Ht & Htd & Hd).
    destruct (removeTokenById_cases (tokens slot) (id d))
      as [[Habs ->]|(t1 & c & t2 & Hsplit & _ & Hc & ->)]; simpl.
    + assert (id d ∉ ids slot) as Hd'.
      { unfold ids. rewrite fmap_app. apply not_elem_of_app. split; [|done].
        intros (x & Hx & Hin)%list_elem_of_fmap. by apply (Habs x). }
      unfold ids. simpl.
      assert (id <$> (tokens slot ++ [t]) ++ waitlist slot ++ [d]
                ≡ₚ id t :: id d :: ids slot) as ->.
      { unfold ids. list_fmap_normal. solve_Permutation. }
      apply NoDup_cons. split; [|by apply NoDup_cons].
      apply not_elem_of_cons. by split.
    + unfold ids. simpl.
      assert (id <$> ((t1 ++ t2) ++ [t]) ++ waitlist slot ++ [d]
                ≡ₚ id t :: ids slot) as ->.
      { unfold ids. rewrite Hsplit. list_fmap_normal.
        rewrite Hc. solve_Permutation. }
      by apply NoDup_cons.
Qed.

Lemma NoDup_call slot c :
  NoDup (ids slot) →
  match c with Apply r => fresh_result slot r | _ => True end →
  NoDup (ids (call slot c)).
Proof.
  intros Hnd Hc. destruct c; simpl.
  - by apply NoDup_applyAllocationResult.
  - by apply NoDup_cancelToken.
  - by apply NoDup_cancelToken.
Qed.

(** The decision taken for a token that is new to the slot satisfies
    [fresh_result]. *)
Lemma fresh_allocateTokenToSlot slot token :
  NoDup (ids slot) → id token ∉ ids slot →
  fresh_result slot (allocateTokenToSlot slot token).
Proof.
  intros Hnd Hnew. unfold fresh_result.
  destruct (allocateTokenToSlot_status slot token)
    as [[Hst _]|[(Hst & _ & d & Hd & Hdis & _)|(_ & _ & Hr)]].
  - rewrite Hst. unfold allocateTokenToSlot in *.
    destruct (canAllocateToken slot token); simpl; [by intros ? [= <-]|].
    revert Hst. destruct (findLowestPriorityMovableToken slot) as [d|];
      [destruct (_ <? _)|]; simpl; try done;
      unfold waitlistOrReject; by destruct (_ <=? _).
  - rewrite Hst, Hdis. intros t d' Ht [= <-].
    assert (t = token) as ->.
    { revert Ht Hst. unfold allocateTokenToSlot.
      destruct (canAllocateToken slot token); [done|]. rewrite Hd.
      destruct (_ <? _); simpl; [by intros [= <-]|].
      unfold waitlistOrReject. by destruct (_ <=? _). }
    destruct (findLowestPriorityMovableToken_Some _ _ Hd)
      as (l1 & l2 & Hsplit & _).
    assert (id d ∈ id <$> tokens slot) as Hin.
    { apply list_elem_of_fmap_2. rewrite Hsplit.
      apply elem_of_app. right. apply elem_of_cons. by left. }
    unfold ids in *. rewrite fmap_app in *.
    apply NoDup_app in Hnd as (_ & Hdisj & _).
    repeat split; [done| |by apply Hdisj].
    intros Heq. apply Hnew. rewrite Heq. apply elem_of_app. by left.
  - rewrite Hr. unfold waitlistOrReject.
    destruct (_ <=? _); simpl; [|done]. by intros ? [= <-].
Qed.

(** C2 (as stated) fails: applying one and the same ALLOCATED decision
    twice puts the token's identifier twice among the occupants. *)
Lemma apply_twice_duplicates :
  let slot := createTestSlot [] [] defaultCapacity in
  let token := createTestToken "t" ONLINE MEDIUM true in
  let r := allocateTokenToSlot slot token in
  NoDup (ids slot)
  ∧ result_status r = ALLOCATED
  ∧ ids (calls slot [Apply r; Apply r]) = ["t"; "t"]
  ∧ ¬ NoDup (ids (calls slot [Apply r; Apply r])).
Proof.
  intros slot token r.
  assert (ids (calls slot [Apply r; Apply r]) = ["t"; "t"]) as Hids
    by reflexivity.
  split; [constructor|]. split; [reflexivity|]. split; [done|].
  rewrite Hids. intros Hnd.
  apply NoDup_cons in Hnd as [Hnotin _]. apply Hnotin.
  apply elem_of_cons. by left.
Qed.

(** C2 (amended): from a slot without duplicate identifiers, any
    sequence of [applyAllocationResult], [cancelToken] and [markNoShow]
    calls in which every applied decision is [fresh_result] for the slot
    it is applied to (its incoming token's identifier is not yet among
    occupants and waitlist; a displaced token has another identifier and
    is not waiting already) leaves occupants and waitlist without
    duplicate identifiers. *)
Theorem no_duplication (cs : list Call) slot :
  NoDup (ids slot) → fresh_calls slot cs → NoDup (ids (calls slot cs)).
Proof.
  revert slot. induction cs as [|c cs IH]; intros slot Hnd Hfresh; [done|].
  destruct Hfresh as [Hc Hcs]. unfold calls. simpl.
  apply IH; [|done]. by apply NoDup_call.
Qed.

Lemma no_duplication_witness :
  let t1 := createTestToken "t1" ONLINE LOW true in
  let t2 := createTestToken "t2" ONLINE MEDIUM true in
  let t3 := createTestToken "t3" ONLINE HIGH true in
  let slot := createTestSlot [t1] [t2] defaultCapacity in
  let r := mkAllocationResult DISPLACED (Some t3) (Some t1) None in
  NoDup (ids (calls slot [Apply r; Cancel "t3"])).
Proof.
  intros t1 t2 t3 slot r. apply (no_duplication [Apply r; Cancel "t3"] slot).
  - unfold ids. simpl. apply NoDup_cons. split.
    + intros H. apply list_elem_of_singleton in H. discriminate H.
    + apply NoDup_singleton.
  - simpl. split; [|done]. unfold fresh_result. simpl.
    intros t d [= <-] [= <-]. simpl. repeat split.
    + intros H. apply elem_of_cons in H as [H|H]; [discriminate H|].
      apply list_elem_of_singleton in H. discriminate H.
    + discriminate.
    + intros H. apply list_elem_of_singleton in H. discriminate H.
Defined.

(** X28: the same for the identifiers: along a history of requests
    handled as the controllers do (decide, then apply once), every
    submitted token carrying an identifier new to the slot, occupants
    and waitlist never hold an identifier twice. *)
Lemma NoDup_history (reqs : list Request) slot :
  NoDup (ids slot) → fresh_requests slot reqs →
  NoDup (ids (foldl handle slot reqs)).
Proof.
  revert slot. induction reqs as [|req reqs IH]; intros slot Hnd Hfresh;
    [done|].
  destruct Hfresh as [Hreq Hrest]. simpl. apply IH; [|done].
  destruct req; simpl.
  - apply NoDup_applyAllocationResult; [done|].
    by apply fresh_allocateTokenToSlot.
  - by apply NoDup_cancelToken.
  - by apply NoDup_cancelToken.
Qed.

(* ================================================================== *)
(** ** Cases of the repository's test suites, replayed on the model *)

Example test_displaces_lowest :
  let slot :=
    createTestSlot [ createTestToken "t1" ONLINE LOW true;
                     createTestToken "t2" ONLINE MEDIUM true;
                     createTestToken "t3" ONLINE MEDIUM true ]
                   [] defaultCapacity in
  let r := allocateTokenToSlot slot (createTestToken "new" WALK_IN HIGH true) in
  result_status r = DISPLACED
  ∧ id <$> displacedToken r = Some "t1"
  ∧ reason r = Some "Token can displace lower-priority token (20 < 60)".
Proof. vm_compute. by repeat split. Qed.

Example test_emergency_not_displaced :
  let slot :=
    createTestSlot [createTestToken "e" EMERGENCY EMERGENCY_LEVEL true] []
                   (mkSlotCapacity 1 1 0) in
  result_status
    (allocateTokenToSlot slot (createTestToken "n" WALK_IN VERY_HIGH true))
  = WAITLISTED.
Proof. reflexivity. Qed.

Example test_hard_max_refuses_emergency :
  canAllocateToken
    (createTestSlot [ createTestToken "a" ONLINE MEDIUM true;
                      createTestToken "b" ONLINE MEDIUM true ]
                    [] (mkSlotCapacity 2 1 1))
    (createTestToken "e" EMERGENCY EMERGENCY_LEVEL true) = false.
Proof. reflexivity. Qed.

Example test_promotes_highest :
  let slot :=
    createTestSlot [createTestToken "active" ONLINE MEDIUM true]
                   [ createTestToken "wait-1" WALK_IN MEDIUM true;
                     createTestToken "wait-2" WALK_IN VERY_HIGH true;
                     createTestToken "wait-3" WALK_IN LOW true ]
                   defaultCapacity in
  id <$> tokens (cancelToken slot "active") = ["wait-2"]
  ∧ id <$> waitlist (cancelToken slot "active") = ["wait-1"; "wait-3"].
Proof. vm_compute. by split. Qed.

(* ================================================================== *)
(** * Further properties of the core *)

(** ** Occupancy counts *)

(** X1: the three class counts never overlap: together with the
    occupants of unknown source they add up to the total, so their sum
    never exceeds [getTotalAllocated] and equals it when every
    occupant's source is one of the five known ones. *)
Theorem class_counts_partition slot :
  getEmergencyCount slot + getPriorityCount slot + getGeneralCount slot
    ≤ getTotalAllocated slot
  ∧ ((∀ t, t ∈ tokens slot → known_source (source t)) →
     getEmergencyCount slot + getPriorityCount slot + getGeneralCount slot
       = getTotalAllocated slot).
Proof.
  unfold getEmergencyCount, getPriorityCount, getGeneralCount,
    getTotalAllocated, known_source.
  induction (tokens slot) as [|a l [IH1 IH2]]; [by split|].
  rewrite !filter_cons.
  assert (EMERGENCY ≠ PRIORITY ∧ EMERGENCY ≠ FOLLOW_UP ∧ EMERGENCY ≠ ONLINE
          ∧ EMERGENCY ≠ WALK_IN ∧ PRIORITY ≠ ONLINE ∧ PRIORITY ≠ WALK_IN
          ∧ FOLLOW_UP ≠ ONLINE ∧ FOLLOW_UP ≠ WALK_IN)
    as (? & ? & ? & ? & ? & ? & ? & ?) by (repeat split; discriminate).
  split.
  - repeat case_decide; simpl length; try lia;
      exfalso; intuition congruence.
  - intros Hknown.
    assert (∀ t, t ∈ l →
              source t = ONLINE ∨ source t = WALK_IN ∨ source t = PRIORITY
              ∨ source t = FOLLOW_UP ∨ source t = EMERGENCY) as Hl
      by (intros t Ht; apply Hknown; apply elem_of_cons; by right).
    specialize (IH2 Hl).
    assert (source a = ONLINE ∨ source a = WALK_IN ∨ source a = PRIORITY
            ∨ source a = FOLLOW_UP ∨ source a = EMERGENCY) as Ha
      by (apply Hknown; apply elem_of_cons; by left).
    repeat case_decide; simpl length; try lia;
      exfalso; intuition congruence.
Qed.

Lemma class_counts_partition_witness :
  let slot :=
    createTestSlot [ createTestToken "a" EMERGENCY EMERGENCY_LEVEL false;
                     createTestToken "b" FOLLOW_UP HIGH true;
                     createTestToken "c" WALK_IN LOW true ]
                   [] defaultCapacity in
  getEmergencyCount slot + getPriorityCount slot + getGeneralCount slot
    = getTotalAllocated slot.
Proof.
  intros slot. apply (class_counts_partition slot).
  intros t Ht. unfold known_source.
  repeat (apply elem_of_cons in Ht as [->|Ht]; [simpl; auto 6|]).
  by apply elem_of_nil in Ht.
Defined.

(** ** Decide, then apply *)

(** The four ways [createToken] (decide, then apply once) changes a
    slot, each with the tests that select it. *)
Lemma createToken_cases slot token :
  (canAllocateToken slot token = true
   ∧ result_status (allocateTokenToSlot slot token) = ALLOCATED
   ∧ createToken slot token = set_tokens slot (tokens slot ++ [token]))
  ∨ (canAllocateToken slot token = false
     ∧ result_status (allocateTokenToSlot slot token) = DISPLACED
     ∧ ∃ d t1 c t2,
         findLowestPriorityMovableToken slot = Some d
         ∧ priority d < priority token
         ∧ tokens slot = t1 ++ c :: t2
         ∧ id c = id d ∧ (∀ x, x ∈ t1 → id x ≠ id d)
         ∧ createToken slot token
           = set_waitlist (set_tokens slot (t1 ++ t2 ++ [token]))
                          (waitlist slot ++ [d]))
  ∨ (canAllocateToken slot token = false
     ∧ (∀ d, findLowestPriorityMovableToken slot = Some d →
             priority token ≤ priority d)
     ∧ ((40 ≤ priority token
         ∧ result_status (allocateTokenToSlot slot token) = WAITLISTED
         ∧ createToken slot token
           = set_waitlist slot (waitlist slot ++ [token]))
        ∨ (priority token < 40
           ∧ result_status (allocateTokenToSlot slot token) = REJECTED
           ∧ createToken slot token = slot))).
Proof.
  unfold createToken.
  destruct (allocateTokenToSlot_status slot token)
    as [[Hst Hc]|[(Hst & Hc & d & Hd & Hdis & Hlt)|(Hc & Hno & Hr)]].
  - left. repeat split; try done.
    unfold allocateTokenToSlot. rewrite Hc. reflexivity.
  - right. left. repeat split; try done.
    destruct (findLowestPriorityMovableToken_Some _ _ Hd)
      as (l1 & l2 & Hsplit & _).
    destruct (removeTokenById_present (tokens slot) (id d))
      as (t1 & c & t2 & Ht & Ht1 & Hcd & Hrm).
    { exists d. split; [|done]. rewrite Hsplit.
      apply elem_of_app. right. apply elem_of_cons. by left. }
    exists d, t1, c, t2. repeat split; try done.
    unfold allocateTokenToSlot. rewrite Hc, Hd.
    apply Z.ltb_lt in Hlt. rewrite Hlt.
    unfold applyAllocationResult. simpl. rewrite Hrm. simpl.
    unfold set_waitlist, set_tokens. simpl. by rewrite <- app_assoc.
  - right. right. repeat split; try done. rewrite Hr.
    unfold waitlistOrReject, MEDIUM.
    destruct (Z.leb_spec 40 (priority token)); [left|right];
      repeat split; try done.
Qed.

(** X2: the decision is ALLOCATED exactly when [canAllocateToken]
    holds; the slot is then below [max], and applying the decision
    appends the token to the occupants and changes nothing else. *)
Theorem allocated_effect slot token :
  (result_status (allocateTokenToSlot slot token) = ALLOCATED
   ↔ canAllocateToken slot token = true)
  ∧ (canAllocateToken slot token = true →
     getTotalAllocated slot < max (capacity slot)
     ∧ createToken slot token = set_tokens slot (tokens slot ++ [token])).
Proof.
  destruct (createToken_cases slot token)
    as [(Hc & Hst & Heq)|[(Hc & Hst & _)|(Hc & _ & [(_ & Hst & _)|(_ & Hst & _)])]];
    rewrite Hst, Hc; (split; [split; congruence|]); try congruence.
  intros _. split; [|done].
  apply hasHardCapacity_true. by eapply canAllocateToken_hard.
Qed.

Lemma allocated_effect_witness :
  let slot := createTestSlot [] [] defaultCapacity in
  let token := createTestToken "n" ONLINE MEDIUM true in
  getTotalAllocated slot < max (capacity slot)
  ∧ createToken slot token = set_tokens slot (tokens slot ++ [token]).
Proof.
  intros slot token. apply (allocated_effect slot token). reflexivity.
Defined.

(** Two occupants with the same identifier are the same token when the
    occupants' identifiers are distinct. *)
Lemma NoDup_ids_same_token (l : list Token) (x y : Token) :
  NoDup (id <$> l) → x ∈ l → y ∈ l → id x = id y → x = y.
Proof.
  induction l as [|a l IH]; intros Hnd Hx Hy Hid; [by apply elem_of_nil in Hx|].
  simpl in Hnd. apply NoDup_cons in Hnd as [Ha Hnd].
  apply elem_of_cons in Hx as [->|Hx], Hy as [->|Hy]; try done.
  - exfalso. apply Ha. rewrite Hid. by apply list_elem_of_fmap_2.
  - exfalso. apply Ha. rewrite <- Hid. by apply list_elem_of_fmap_2.
  - by apply IH.
Qed.

(** X3: applying a DISPLACED decision takes out the first occupant that
    carries the displaced token's identifier, appends the incoming token
    to the occupants and the displaced token to the end of the
    waitlist; the other occupants and the waiting tokens keep their
    order.  With distinct occupant identifiers the occupant taken out
    is the displaced token itself. *)
Theorem displaced_effect slot token :
  result_status (allocateTokenToSlot slot token) = DISPLACED →
  ∃ d t1 c t2,
    displacedToken (allocateTokenToSlot slot token) = Some d
    ∧ tokens slot = t1 ++ c :: t2
    ∧ id c = id d ∧ (∀ x, x ∈ t1 → id x ≠ id d)
    ∧ tokens (createToken slot token) = t1 ++ t2 ++ [token]
    ∧ waitlist (createToken slot token) = waitlist slot ++ [d]
    ∧ (NoDup (id <$> tokens slot) → c = d).
Proof.
  intros Hst.
  destruct (createToken_cases slot token)
    as [(_ & H & _)|[(Hc & _ & d & t1 & c & t2 & Hd & Hlt & Ht & Hcd & Ht1 & Heq)
                    |(_ & _ & [(_ & H & _)|(_ & H & _)])]];
    try congruence.
  exists d, t1, c, t2. rewrite Heq. repeat split; try done.
  - unfold allocateTokenToSlot. rewrite Hc, Hd.
    apply Z.ltb_lt in Hlt. by rewrite Hlt.
  - intros Hnd.
    destruct (findLowestPriorityMovableToken_Some _ _ Hd)
      as (l1 & l2 & Hsplit & _).
    apply (NoDup_ids_same_token (tokens slot)); try done.
    + rewrite Ht. apply elem_of_app. right. apply elem_of_cons. by left.
    + rewrite Hsplit. apply elem_of_app. right. apply elem_of_cons. by left.
Qed.

Lemma displaced_effect_witness :
  let slot :=
    createTestSlot [ createTestToken "t1" ONLINE MEDIUM true;
                     createTestToken "t2" ONLINE LOW true ]
                   [createTestToken "w" WALK_IN MEDIUM true]
                   (mkSlotCapacity 2 0 0) in
  let token := createTestToken "n" WALK_IN HIGH true in
  ∃ d t1 c t2,
    displacedToken (allocateTokenToSlot slot token) = Some d
    ∧ tokens slot = t1 ++ c :: t2
    ∧ id c = id d ∧ (∀ x, x ∈ t1 → id x ≠ id d)
    ∧ tokens (createToken slot token) = t1 ++ t2 ++ [token]
    ∧ waitlist (createToken slot token) = waitlist slot ++ [d]
    ∧ (NoDup (id <$> tokens slot) → c = d).
Proof.
  intros slot token. apply (displaced_effect slot token). reflexivity.
Defined.

(** X4: a token of priority 40 (MEDIUM) or more is never turned away:
    after decide-then-apply it is among the occupants or on the
    waitlist.  A REJECTED decision only meets tokens below 40, and
    applying it leaves the slot as it was. *)
Theorem medium_never_turned_away slot token :
  (40 ≤ priority token →
   token ∈ tokens (createToken slot token)
   ∨ token ∈ waitlist (createToken slot token))
  ∧ (result_status (allocateTokenToSlot slot token) = REJECTED →
     priority token < 40 ∧ createToken slot token = slot).
Proof.
  destruct (createToken_cases slot token)
    as [(_ & Hst & Heq)
       |[(_ & Hst & d & t1 & c & t2 & _ & _ & _ & _ & _ & Heq)
        |(_ & _ & [(Hp & Hst & Heq)|(Hp & Hst & Heq)])]];
    rewrite Hst, Heq; split; try congruence; try lia; intros _; simpl.
  - left. apply elem_of_app. right. by apply list_elem_of_singleton.
  - left. rewrite !elem_of_app. right. right. by apply list_elem_of_singleton.
  - right. apply elem_of_app. right. by apply list_elem_of_singleton.
  - done.
Qed.

Lemma medium_never_turned_away_witness :
  let slot :=
    createTestSlot [createTestToken "e" EMERGENCY EMERGENCY_LEVEL false] []
                   (mkSlotCapacity 1 1 0) in
  let token := createTestToken "n" ONLINE MEDIUM true in
  token ∈ tokens (createToken slot token)
  ∨ token ∈ waitlist (createToken slot token).
Proof.
  intros slot token. apply (medium_never_turned_away slot token).
  vm_compute. congruence.
Defined.

(** X5: decide-then-apply adds exactly one token to the slot (occupants
    and waitlist counted together) unless the decision is REJECTED, in
    which case the count stays. *)
Theorem createToken_population slot token :
  Z.of_nat (length (tokens (createToken slot token))
            + length (waitlist (createToken slot token)))
  = Z.of_nat (length (tokens slot) + length (waitlist slot))
    + match result_status (allocateTokenToSlot slot token) with
      | REJECTED => 0
      | _ => 1
      end.
Proof.
  destruct (createToken_cases slot token)
    as [(_ & Hst & Heq)
       |[(_ & Hst & d & t1 & c & t2 & _ & _ & Ht & _ & _ & Heq)
        |(_ & _ & [(_ & Hst & Heq)|(_ & Hst & Heq)])]];
    rewrite Hst, Heq; simpl; rewrite ?Ht, ?length_app; simpl;
    rewrite ?length_app; simpl; lia.
Qed.

(** X6: every decision carries what [applyAllocationResult] looks for:
    the incoming token unless the decision is REJECTED, a displaced
    token that is an occupant exactly when it is DISPLACED, and always
    a reason; so applying a decision never falls into the branches for
    a missing token. *)
Theorem decision_fields slot token :
  is_Some (reason (allocateTokenToSlot slot token))
  ∧ match result_status (allocateTokenToSlot slot token) with
    | ALLOCATED | WAITLISTED =>
        allocatedToken (allocateTokenToSlot slot token) = Some token
        ∧ displacedToken (allocateTokenToSlot slot token) = None
    | DISPLACED =>
        allocatedToken (allocateTokenToSlot slot token) = Some token
        ∧ ∃ d, displacedToken (allocateTokenToSlot slot token) = Some d
               ∧ d ∈ tokens slot
    | REJECTED =>
        allocatedToken (allocateTokenToSlot slot token) = None
        ∧ displacedToken (allocateTokenToSlot slot token) = None
    end.
Proof.
  unfold allocateTokenToSlot.
  destruct (canAllocateToken slot token); [by split|].
  destruct (findLowestPriorityMovableToken slot) as [d|] eqn:Hd.
  - destruct (priority d <? priority token); simpl.
    + split; [done|]. split; [done|]. exists d. split; [done|].
      destruct (findLowestPriorityMovableToken_Some _ _ Hd)
        as (l1 & l2 & -> & _).
      apply elem_of_app. right. apply elem_of_cons. by left.
    + unfold waitlistOrReject. by destruct (MEDIUM <=? priority token).
  - unfold waitlistOrReject. by destruct (MEDIUM <=? priority token).
Qed.

(** X7: raising a token's priority never worsens its decision on a
    given slot: with the source unchanged, ALLOCATED stays ALLOCATED,
    DISPLACED stays DISPLACED, and WAITLISTED becomes WAITLISTED or
    DISPLACED, never REJECTED. *)
Theorem decision_monotone_in_priority slot (t1 t2 : Token) :
  source t1 = source t2 → priority t1 ≤ priority t2 →
  (result_status (allocateTokenToSlot slot t1) = ALLOCATED →
   result_status (allocateTokenToSlot slot t2) = ALLOCATED)
  ∧ (result_status (allocateTokenToSlot slot t1) = DISPLACED →
     result_status (allocateTokenToSlot slot t2) = DISPLACED)
  ∧ (result_status (allocateTokenToSlot slot t1) = WAITLISTED →
     result_status (allocateTokenToSlot slot t2) = WAITLISTED
     ∨ result_status (allocateTokenToSlot slot t2) = DISPLACED).
Proof.
  intros Hs Hp. unfold allocateTokenToSlot, canAllocateToken.
  rewrite Hs. destruct (if negb _ then _ else _); [done|].
  unfold waitlistOrReject, MEDIUM.
  destruct (findLowestPriorityMovableToken slot) as [d|].
  - destruct (Z.ltb_spec (priority d) (priority t1)),
             (Z.ltb_spec (priority d) (priority t2)),
             (Z.leb_spec 40 (priority t1)),
             (Z.leb_spec 40 (priority t2));
      simpl; repeat split; try done; try lia; auto.
  - destruct (Z.leb_spec 40 (priority t1)), (Z.leb_spec 40 (priority t2));
      simpl; repeat split; try done; try lia; auto.
Qed.

Lemma decision_monotone_in_priority_witness :
  let slot :=
    createTestSlot [createTestToken "o" ONLINE MEDIUM true] []
                   (mkSlotCapacity 1 0 0) in
  let t1 := createTestToken "a" WALK_IN MEDIUM true in
  let t2 := createTestToken "b" WALK_IN HIGH true in
  (result_status (allocateTokenToSlot slot t1) = ALLOCATED →
   result_status (allocateTokenToSlot slot t2) = ALLOCATED)
  ∧ (result_status (allocateTokenToSlot slot t1) = DISPLACED →
     result_status (allocateTokenToSlot slot t2) = DISPLACED)
  ∧ (result_status (allocateTokenToSlot slot t1) = WAITLISTED →
     result_status (allocateTokenToSlot slot t2) = WAITLISTED
     ∨ result_status (allocateTokenToSlot slot t2) = DISPLACED).
Proof.
  intros slot t1 t2. apply (decision_monotone_in_priority slot t1 t2).
  - reflexivity.
  - vm_compute. congruence.
Defined.

(** X8: with distinct occupant identifiers, decide-then-apply never
    takes out an occupant that is not movable or is of source
    EMERGENCY: every such occupant is still an occupant afterwards. *)
Theorem protected_occupants_stay slot token (x : Token) :
  NoDup (id <$> tokens slot) →
  x ∈ tokens slot → movable x = false ∨ source x = EMERGENCY →
  x ∈ tokens (createToken slot token).
Proof.
  intros Hnd Hx Hprot.
  destruct (createToken_cases slot token)
    as [(_ & _ & Heq)
       |[(_ & _ & d & t1 & c & t2 & Hd & _ & Ht & Hcd & _ & Heq)
        |(_ & _ & [(_ & _ & Heq)|(_ & _ & Heq)])]];
    rewrite Heq; simpl; try done.
  - apply elem_of_app. by left.
  - destruct (findLowestPriorityMovableToken_Some _ _ Hd)
      as (l1 & l2 & Hsplit & [Hm Hs] & _).
    assert (c = d) as ->.
    { apply (NoDup_ids_same_token (tokens slot)); try done.
      - rewrite Ht. apply elem_of_app. right. apply elem_of_cons. by left.
      - rewrite Hsplit. apply elem_of_app. right. apply elem_of_cons.
        by left. }
    assert (x ≠ d) as Hne.
    { intros ->. destruct Hprot as [Hp|Hp]; congruence. }
    rewrite Ht in Hx. rewrite !elem_of_app in *.
    destruct Hx as [Hx|Hx]; [by left|].
    apply elem_of_cons in Hx as [Hx|Hx]; [done|]. right. by left.
Qed.

Lemma protected_occupants_stay_witness :
  let e := createTestToken "e" EMERGENCY LOW true in
  let slot :=
    createTestSlot [e; createTestToken "o" ONLINE MEDIUM true] []
                   (mkSlotCapacity 2 1 0) in
  let token := createTestToken "n" WALK_IN HIGH true in
  e ∈ tokens (createToken slot token).
Proof.
  intros e slot token. apply (protected_occupants_stay slot token e).
  - simpl. apply NoDup_cons. split.
    + intros H. apply list_elem_of_singleton in H. discriminate H.
    + apply NoDup_singleton.
  - apply elem_of_cons. by left.
  - right. reflexivity.
Defined.

(** X9: [findLowestPriorityMovableToken] returns nothing exactly when
    no occupant is both movable and of a source other than EMERGENCY;
    on an empty slot in particular. *)
Theorem no_candidate_iff slot :
  (findLowestPriorityMovableToken slot = None
   ↔ ∀ x, x ∈ tokens slot → movable x = false ∨ source x = EMERGENCY)
  ∧ (tokens slot = [] → findLowestPriorityMovableToken slot = None).
Proof.
  assert (findLowestPriorityMovableToken slot = None
          ↔ ∀ x, x ∈ tokens slot → movable x = false ∨ source x = EMERGENCY)
    as Hiff.
  { rewrite findLowestPriorityMovableToken_None. unfold eligible.
    split; intros H x Hx; specialize (H x Hx).
    - destruct (movable x); [|by left].
      destruct (decide (source x = EMERGENCY)); [by right|].
      exfalso. by apply H.
    - intros [Hm Hs]. destruct H; congruence. }
  split; [done|]. intros Hnil. apply Hiff. intros x Hx.
  rewrite Hnil in Hx. by apply elem_of_nil in Hx.
Qed.

Lemma no_candidate_iff_witness :
  findLowestPriorityMovableToken (createTestSlot [] [] defaultCapacity) = None.
Proof.
  apply (no_candidate_iff (createTestSlot [] [] defaultCapacity)). reflexivity.
Defined.

(** ** Removal, cancellation and promotion *)

Lemma findIndex_from_split (p : Token → bool) (l1 l2 : list Token)
    (x : Token) (i : Z) :
  Forall (λ t, p t = false) l1 → p x = true →
  findIndex_from p (l1 ++ x :: l2) i = i + Z.of_nat (length l1).
Proof.
  revert i. induction l1 as [|a l1 IH]; intros i Hall Hx; simpl.
  - rewrite Hx. lia.
  - inversion_clear Hall as [|?? Ha Hl1]. rewrite Ha, IH by done. lia.
Qed.

Lemma removeTokenById_split (t1 t2 : list Token) (c : Token)
    (tokenId : string) :
  (∀ x, x ∈ t1 → id x ≠ tokenId) → id c = tokenId →
  removeTokenById (t1 ++ c :: t2) tokenId = (Some c, t1 ++ t2).
Proof.
  intros Ht1 Hc. unfold removeTokenById, findIndex.
  rewrite findIndex_from_split.
  - replace (0 + Z.of_nat (length t1) =? -1) with false
      by (symmetry; apply Z.eqb_neq; lia).
    by rewrite Z.add_0_l, Nat2Z.id, list_lookup_middle, delete_middle.
  - apply Forall_forall. intros x Hx. apply bool_decide_eq_false.
    by apply Ht1.
  - by apply bool_decide_eq_true.
Qed.

(** X10: [removeTokenById] returns nothing and leaves the array as it
    is exactly when no element carries the identifier; otherwise it
    returns the first element that carries it and the array without
    that one element, the others in their order (later elements with
    the same identifier stay). *)
Theorem removeTokenById_first_occurrence (ts : list Token) (tokenId : string) :
  ((removeTokenById ts tokenId).1 = None
   ↔ ∀ t, t ∈ ts → id t ≠ tokenId)
  ∧ ((removeTokenById ts tokenId).1 = None →
     (removeTokenById ts tokenId).2 = ts)
  ∧ (∀ t1 c t2,
       ts = t1 ++ c :: t2 → (∀ x, x ∈ t1 → id x ≠ tokenId) → id c = tokenId →
       removeTokenById ts tokenId = (Some c, t1 ++ t2)).
Proof.
  split; [|split].
  - destruct (removeTokenById_cases ts tokenId)
      as [[Habs ->]|(t1 & c & t2 & -> & _ & Hc & ->)]; simpl; [done|].
    split; [done|]. intros Habs. exfalso. apply (Habs c); [|done].
    apply elem_of_app. right. apply elem_of_cons. by left.
  - destruct (removeTokenById_cases ts tokenId)
      as [[_ ->]|(t1 & c & t2 & _ & _ & _ & ->)]; by simpl.
  - intros t1 c t2 -> Ht1 Hc. by apply removeTokenById_split.
Qed.

Lemma removeTokenById_first_occurrence_witness :
  let a := createTestToken "a" ONLINE LOW true in
  let b1 := createTestToken "b" ONLINE MEDIUM true in
  let b2 := createTestToken "b" WALK_IN HIGH true in
  removeTokenById [a; b1; b2] "b" = (Some b1, [a; b2]).
Proof.
  intros a b1 b2.
  apply (removeTokenById_first_occurrence [a; b1; b2] "b") with (t1 := [a]).
  - reflexivity.
  - intros x Hx. apply list_elem_of_singleton in Hx. subst x.
    simpl. discriminate.
  - reflexivity.
Defined.

(** What [cancelToken] does, by cases on the occupants and the
    waitlist. *)
Lemma cancelToken_cases slot tokenId :
  ((∀ t, t ∈ tokens slot → id t ≠ tokenId) ∧ cancelToken slot tokenId = slot)
  ∨ (∃ t1 c t2,
       tokens slot = t1 ++ c :: t2
       ∧ id c = tokenId ∧ (∀ x, x ∈ t1 → id x ≠ tokenId)
       ∧ ((waitlist slot = []
           ∧ cancelToken slot tokenId = set_tokens slot (t1 ++ t2))
          ∨ (∃ l1 w l2,
               waitlist slot = l1 ++ w :: l2
               ∧ (∀ x, x ∈ l1 → priority x < priority w)
               ∧ (∀ x, x ∈ l2 → priority x ≤ priority w)
               ∧ cancelToken slot tokenId
                 = set_tokens (set_waitlist slot (l1 ++ l2))
                              (t1 ++ t2 ++ [w])))).
Proof.
  unfold cancelToken.
  destruct (removeTokenById_cases (tokens slot) tokenId)
    as [[Habs ->]|(t1 & c & t2 & Ht & Ht1 & Hc & ->)]; simpl.
  - left. split; [done|]. apply set_tokens_same.
  - right. exists t1, c, t2. repeat split; try done.
    destruct (waitlist slot) as [|a wl] eqn:Hwl.
    + left. split; [done|]. by apply promoteFromWaitlist_nil.
    + right.
      destruct (promoteFromWaitlist_spec (set_tokens slot (t1 ++ t2)))
        as (l1 & w & l2 & Hw & H1 & H2 & ->).
      { simpl. by rewrite Hwl. }
      simpl in Hw. rewrite Hwl in Hw.
      exists l1, w, l2. repeat split; try done.
      unfold set_tokens, set_waitlist. simpl. by rewrite <- app_assoc.
Qed.

(** X11: cancelling an identifier that an occupant carries removes
    exactly that occupant from the slot: occupants and waitlist taken
    together are the former ones without it, and neither the capacity
    nor the slot's own fields change. *)
Theorem cancel_removes_exactly_one slot tokenId :
  (∃ t, t ∈ tokens slot ∧ id t = tokenId) →
  ∃ c, c ∈ tokens slot ∧ id c = tokenId
    ∧ c :: tokens (cancelToken slot tokenId)
           ++ waitlist (cancelToken slot tokenId)
      ≡ₚ tokens slot ++ waitlist slot
    ∧ capacity (cancelToken slot tokenId) = capacity slot
    ∧ slot_id (cancelToken slot tokenId) = slot_id slot.
Proof.
  intros (t & Ht & Hid).
  destruct (cancelToken_cases slot tokenId)
    as [[Habs _]|(t1 & c & t2 & Hsplit & Hc & _ & Hcase)];
    [by destruct (Habs t Ht)|].
  exists c. split; [|split; [done|]].
  { rewrite Hsplit. apply elem_of_app. right. apply elem_of_cons. by left. }
  destruct Hcase as [[Hwl ->]|(l1 & w & l2 & Hwl & _ & _ & ->)]; simpl;
    rewrite Hsplit, Hwl; (split; [solve_Permutation|done]).
Qed.

Lemma cancel_removes_exactly_one_witness :
  let slot :=
    createTestSlot [createTestToken "active" ONLINE MEDIUM true]
                   [createTestToken "wait" WALK_IN HIGH true]
                   defaultCapacity in
  ∃ c, c ∈ tokens slot ∧ id c = "active"
    ∧ c :: tokens (cancelToken slot "active")
           ++ waitlist (cancelToken slot "active")
      ≡ₚ tokens slot ++ waitlist slot
    ∧ capacity (cancelToken slot "active") = capacity slot
    ∧ slot_id (cancelToken slot "active") = slot_id slot.
Proof.
  intros slot. apply (cancel_removes_exactly_one slot "active").
  exists (createTestToken "active" ONLINE MEDIUM true).
  split; [apply elem_of_cons; by left | reflexivity].
Defined.

(** X12: with an empty waitlist a cancellation only removes: the first
    occupant carrying the identifier goes, nobody is promoted, and the
    waitlist stays empty. *)
Theorem cancel_with_empty_waitlist slot tokenId (t1 t2 : list Token)
    (c : Token) :
  waitlist slot = [] →
  tokens slot = t1 ++ c :: t2 →
  (∀ x, x ∈ t1 → id x ≠ tokenId) → id c = tokenId →
  tokens (cancelToken slot tokenId) = t1 ++ t2
  ∧ waitlist (cancelToken slot tokenId) = []
  ∧ markNoShow slot tokenId = cancelToken slot tokenId.
Proof.
  intros Hwl Ht Ht1 Hc. unfold markNoShow, cancelToken.
  rewrite Ht, removeTokenById_split by done. simpl.
  rewrite promoteFromWaitlist_nil by done. by simpl.
Qed.

Lemma cancel_with_empty_waitlist_witness :
  let slot :=
    createTestSlot [createTestToken "to-cancel" ONLINE MEDIUM true] []
                   defaultCapacity in
  tokens (cancelToken slot "to-cancel") = [] ++ []
  ∧ waitlist (cancelToken slot "to-cancel") = []
  ∧ markNoShow slot "to-cancel" = cancelToken slot "to-cancel".
Proof.
  intros slot.
  apply (cancel_with_empty_waitlist slot "to-cancel" [] []
           (createTestToken "to-cancel" ONLINE MEDIUM true)).
  - reflexivity.
  - reflexivity.
  - intros x Hx. by apply elem_of_nil in Hx.
  - reflexivity.
Defined.

(** X13: when the identifiers of a slot are distinct, cancelling the
    same identifier a second time changes nothing: the first call has
    removed its only carrier among the occupants, and the promoted token
    carries another identifier. *)
Theorem cancel_twice slot tokenId :
  NoDup (ids slot) →
  cancelToken (cancelToken slot tokenId) tokenId = cancelToken slot tokenId.
Proof.
  intros Hnd.
  assert (∀ t, t ∈ tokens (cancelToken slot tokenId) → id t ≠ tokenId)
    as Habs.
  { destruct (cancelToken_cases slot tokenId)
      as [[Habs ->]|(t1 & c & t2 & Hsplit & Hc & Ht1 & Hcase)]; [done|].
    assert (∀ x, x ∈ t1 ++ t2 ++ waitlist slot → id x ≠ tokenId) as Hothers.
    { intros x Hx Hid. unfold ids in Hnd. rewrite Hsplit in Hnd.
      rewrite <- app_assoc, fmap_app in Hnd. simpl in Hnd.
      apply NoDup_app in Hnd as (_ & Hdisj & Hnd).
      apply NoDup_cons in Hnd as [Hc2 _].
      apply elem_of_app in Hx as [Hx|Hx].
      - apply (Hdisj (id x)); [by apply list_elem_of_fmap_2|].
        apply elem_of_cons. left. congruence.
      - apply Hc2. rewrite Hc, <- Hid. by apply list_elem_of_fmap_2. }
    destruct Hcase as [[Hwl ->]|(l1 & w & l2 & Hwl & _ & _ & ->)]; simpl;
      intros x Hx; apply Hothers; rewrite ?Hwl;
      rewrite !elem_of_app in *; rewrite ?elem_of_cons;
      rewrite ?list_elem_of_singleton in Hx; intuition (subst; auto). }
  unfold cancelToken at 1. rewrite removeTokenById_absent by done.
  simpl. apply set_tokens_same.
Qed.

Lemma cancel_twice_witness :
  let slot :=
    createTestSlot [createTestToken "active" ONLINE MEDIUM true]
                   [createTestToken "wait" WALK_IN HIGH true]
                   defaultCapacity in
  cancelToken (cancelToken slot "active") "active"
  = cancelToken slot "active".
Proof.
  intros slot. apply (cancel_twice slot "active").
  unfold ids. simpl. apply NoDup_cons. split.
  - intros H. apply list_elem_of_singleton in H. discriminate H.
  - apply NoDup_singleton.
Defined.

(* ================================================================== *)
(** * The store and the token controller *)

(** ** Searching and changing in place *)

Section FindUpdate.
Context {A : Type} (p : A → bool).

Lemma find_Some_split (l : list A) (x : A) :
  find p l = Some x ↔
  ∃ l1 l2, l = l1 ++ x :: l2 ∧ p x = true ∧ ∀ y, y ∈ l1 → p y = false.
Proof.
  split.
  - induction l as [|a l IH]; simpl; [done|].
    destruct (p a) eqn:Ha.
    + intros [= <-]. exists [], l. repeat split; [done|].
      intros y Hy. by apply elem_of_nil in Hy.
    + intros Hf. destruct (IH Hf) as (l1 & l2 & -> & Hx & Hl1).
      exists (a :: l1), l2. repeat split; [done|].
      intros y Hy. apply elem_of_cons in Hy as [->|Hy]; [done|by apply Hl1].
  - intros (l1 & l2 & -> & Hx & Hl1).
    induction l1 as [|a l1 IH]; simpl; [by rewrite Hx|].
    rewrite (Hl1 a) by (apply elem_of_cons; by left).
    apply IH. intros y Hy. apply Hl1. apply elem_of_cons. by right.
Qed.

Lemma find_None_all (l : list A) :
  find p l = None ↔ ∀ y, y ∈ l → p y = false.
Proof.
  induction l as [|a l IH]; simpl.
  - split; [|done]. intros _ y Hy. by apply elem_of_nil in Hy.
  - destruct (p a) eqn:Ha.
    + split; [done|]. intros H.
      rewrite (H a) in Ha by (apply elem_of_cons; by left). done.
    + rewrite IH. split.
      * intros H y Hy. apply elem_of_cons in Hy as [->|Hy]; [done|by apply H].
      * intros H y Hy. apply H. apply elem_of_cons. by right.
Qed.

Lemma update_first_split (f : A → A) (l1 l2 : list A) (x : A) :
  p x = true → (∀ y, y ∈ l1 → p y = false) →
  update_first p f (l1 ++ x :: l2) = l1 ++ f x :: l2.
Proof.
  intros Hx Hl1. induction l1 as [|a l1 IH]; simpl; [by rewrite Hx|].
  rewrite (Hl1 a) by (apply elem_of_cons; by left).
  f_equal. apply IH. intros y Hy. apply Hl1. apply elem_of_cons. by right.
Qed.

Lemma update_first_none (f : A → A) (l : list A) :
  (∀ y, y ∈ l → p y = false) → update_first p f l = l.
Proof.
  intros Hl. induction l as [|a l IH]; simpl; [done|].
  rewrite (Hl a) by (apply elem_of_cons; by left).
  f_equal. apply IH. intros y Hy. apply Hl. apply elem_of_cons. by right.
Qed.
End FindUpdate.

Lemma set_slots_same doctor : set_slots doctor (slots doctor) = doctor.
Proof. by destruct doctor. Qed.

Lemma existsb_id (tokenId : string) (l : list Token) :
  existsb (λ t, bool_decide (id t = tokenId)) l = true
  ↔ tokenId ∈ id <$> l.
Proof.
  rewrite existsb_exists, list_elem_of_fmap. split.
  - intros (x & Hx & Hid). exists x. apply bool_decide_eq_true in Hid.
    split; [done|]. by apply list_elem_of_In.
  - intros (x & Hid & Hx). exists x. split; [by apply list_elem_of_In|].
    by apply bool_decide_eq_true.
Qed.

Lemma holdsToken_true tokenId slot :
  holdsToken tokenId slot = true ↔ tokenId ∈ ids slot.
Proof.
  unfold holdsToken, ids. rewrite fmap_app, elem_of_app, orb_true_iff.
  by rewrite !existsb_id.
Qed.

Lemma holdsToken_false tokenId slot :
  holdsToken tokenId slot = false ↔ tokenId ∉ ids slot.
Proof.
  rewrite <- holdsToken_true. by destruct (holdsToken tokenId slot).
Qed.

Lemma findSlotByTokenId_Some doctors tokenId slot doctor :
  findSlotByTokenId doctors tokenId = Some (slot, doctor) ↔
  ∃ ds1 ds2 ss1 ss2,
    first_holder doctors tokenId ds1 doctor ds2 ss1 slot ss2.
Proof.
  unfold first_holder. split.
  - induction doctors as [|d ds IH]; simpl; [done|].
    destruct (find (holdsToken tokenId) (slots d)) as [s|] eqn:Hf.
    + intros [= -> ->].
      apply find_Some_split in Hf as (ss1 & ss2 & Hss & Hs & Hss1).
      exists [], ds, ss1, ss2. repeat split; try done.
      * intros d' s' Hd'. by apply elem_of_nil in Hd'.
      * intros s' Hs'. apply holdsToken_false. by apply Hss1.
      * by apply holdsToken_true.
    + intros Hrest.
      destruct (IH Hrest) as (ds1 & ds2 & ss1 & ss2 & -> & Hds1 & Hrem).
      exists (d :: ds1), ds2, ss1, ss2. repeat split; try apply Hrem.
      intros d' s' Hd' Hs'. apply elem_of_cons in Hd' as [->|Hd'].
      * apply holdsToken_false.
        by apply (proj1 (find_None_all _ _) Hf).
      * by eapply Hds1.
  - intros (ds1 & ds2 & ss1 & ss2 & -> & Hds1 & Hss & Hss1 & Hs).
    induction ds1 as [|d ds1 IH]; simpl.
    + assert (find (holdsToken tokenId) (slots doctor) = Some slot) as ->;
        [|done].
      apply find_Some_split. exists ss1, ss2. repeat split; [done| |].
      * by apply holdsToken_true.
      * intros s' Hs'. apply holdsToken_false. by apply Hss1.
    + assert (find (holdsToken tokenId) (slots d) = None) as ->.
      { apply find_None_all. intros s' Hs'. apply holdsToken_false.
        apply (Hds1 d); [apply elem_of_cons; by left | done]. }
      apply IH. intros d' s' Hd'. apply Hds1. apply elem_of_cons. by right.
Qed.

Lemma findSlotByTokenId_None doctors tokenId :
  findSlotByTokenId doctors tokenId = None ↔
  ∀ d s, d ∈ doctors → s ∈ slots d → tokenId ∉ ids s.
Proof.
  induction doctors as [|d ds IH]; simpl.
  - split; [|done]. intros _ d s Hd. by apply elem_of_nil in Hd.
  - destruct (find (holdsToken tokenId) (slots d)) as [s|] eqn:Hf.
    + split; [done|]. intros Hno. exfalso.
      apply find_Some_split in Hf as (ss1 & ss2 & Hss & Hs & _).
      apply holdsToken_true in Hs. apply (Hno d s); [| |done].
      * apply elem_of_cons. by left.
      * rewrite Hss. apply elem_of_app. right. apply elem_of_cons. by left.
    + rewrite IH. split.
      * intros H d' s' Hd' Hs'. apply elem_of_cons in Hd' as [->|Hd'].
        -- apply holdsToken_false. by apply (proj1 (find_None_all _ _) Hf).
        -- by eapply H.
      * intros H d' s' Hd'. apply H. apply elem_of_cons. by right.
Qed.

Lemma updateSlotByTokenId_holder doctors tokenId f
    ds1 doctor ds2 ss1 slot ss2 :
  first_holder doctors tokenId ds1 doctor ds2 ss1 slot ss2 →
  updateSlotByTokenId doctors tokenId f
  = ds1 ++ set_slots doctor (ss1 ++ f slot :: ss2) :: ds2.
Proof.
  intros (-> & Hds1 & Hss & Hss1 & Hs). unfold updateSlotByTokenId.
  assert (∀ s, s ∈ ss1 → holdsToken tokenId s = false) as Hss1'
    by (intros s' Hs'; apply holdsToken_false; by apply Hss1).
  apply holdsToken_true in Hs.
  rewrite update_first_split.
  - by rewrite Hss, update_first_split.
  - apply existsb_exists. exists slot. split; [|done].
    apply list_elem_of_In. rewrite Hss.
    apply elem_of_app. right. apply elem_of_cons. by left.
  - intros d Hd. apply not_true_is_false. intros Hex.
    apply existsb_exists in Hex as (s & Hin & Hh).
    apply list_elem_of_In in Hin. apply holdsToken_true in Hh.
    by apply (Hds1 d s).
Qed.

Lemma findSlot_Some doctors doctorId slotId slot :
  findSlot doctors doctorId slotId = Some slot ↔
  ∃ ds1 doctor ds2 ss1 ss2,
    slot_place doctors doctorId slotId ds1 doctor ds2 ss1 slot ss2.
Proof.
  unfold findSlot, findDoctorById, slot_place. split.
  - destruct (find _ doctors) as [doctor|] eqn:Hd; [|done]. intros Hs.
    apply find_Some_split in Hd as (ds1 & ds2 & -> & Hid & Hds1).
    apply find_Some_split in Hs as (ss1 & ss2 & Hss & Hsid & Hss1).
    exists ds1, doctor, ds2, ss1, ss2.
    apply bool_decide_eq_true in Hid, Hsid. repeat split; try done.
    + intros d Hd. specialize (Hds1 d Hd).
      by apply bool_decide_eq_false in Hds1.
    + intros s Hs. specialize (Hss1 s Hs).
      by apply bool_decide_eq_false in Hss1.
  - intros (ds1 & doctor & ds2 & ss1 & ss2 & -> & Hds1 & Hid & Hss & Hss1 & Hsid).
    assert (find (λ d, bool_decide (doctor_id d = doctorId))
                 (ds1 ++ doctor :: ds2) = Some doctor) as ->.
    { apply find_Some_split. exists ds1, ds2. split_and!; [done| |].
      - by apply bool_decide_eq_true.
      - intros d Hd. apply bool_decide_eq_false. by apply Hds1. }
    apply find_Some_split. exists ss1, ss2. split_and!; [done| |].
    + by apply bool_decide_eq_true.
    + intros s Hs. apply bool_decide_eq_false. by apply Hss1.
Qed.

Lemma updateSlot_place doctors doctorId slotId f
    ds1 doctor ds2 ss1 slot ss2 :
  slot_place doctors doctorId slotId ds1 doctor ds2 ss1 slot ss2 →
  updateSlot doctors doctorId slotId f
  = ds1 ++ set_slots doctor (ss1 ++ f slot :: ss2) :: ds2.
Proof.
  intros (-> & Hds1 & Hid & Hss & Hss1 & Hsid). unfold updateSlot.
  rewrite update_first_split.
  - rewrite Hss, update_first_split; [done| |].
    + by apply bool_decide_eq_true.
    + intros s Hs. apply bool_decide_eq_false. by apply Hss1.
  - by apply bool_decide_eq_true.
  - intros d Hd. apply bool_decide_eq_false. by apply Hds1.
Qed.

(** X14: [findSlot] returns a slot exactly when the first doctor of the
    store that carries the doctor identifier has a slot with the slot
    identifier, and then the first such slot of that doctor; a later
    doctor with the same identifier is never looked at. *)
Theorem findSlot_first_match doctors doctorId slotId :
  (∀ slot,
     findSlot doctors doctorId slotId = Some slot ↔
     ∃ ds1 doctor ds2 ss1 ss2,
       slot_place doctors doctorId slotId ds1 doctor ds2 ss1 slot ss2)
  ∧ ((∀ d, d ∈ doctors → doctor_id d ≠ doctorId) →
     findSlot doctors doctorId slotId = None)
  ∧ (∀ ds1 doctor ds2,
       doctors = ds1 ++ doctor :: ds2 →
       (∀ d, d ∈ ds1 → doctor_id d ≠ doctorId) →
       doctor_id doctor = doctorId →
       (∀ s, s ∈ slots doctor → slot_id s ≠ slotId) →
       findSlot doctors doctorId slotId = None).
Proof.
  split; [intros slot; apply findSlot_Some|]. split.
  - intros Hno. unfold findSlot, findDoctorById.
    assert (find (λ d, bool_decide (doctor_id d = doctorId)) doctors = None)
      as ->; [|done].
    apply find_None_all. intros d Hd. apply bool_decide_eq_false.
    by apply Hno.
  - intros ds1 doctor ds2 -> Hds1 Hid Hss. unfold findSlot, findDoctorById.
    assert (find (λ d, bool_decide (doctor_id d = doctorId))
                 (ds1 ++ doctor :: ds2) = Some doctor) as ->.
    { apply find_Some_split. exists ds1, ds2. split_and!; [done| |].
      - by apply bool_decide_eq_true.
      - intros d Hd. apply bool_decide_eq_false. by apply Hds1. }
    apply find_None_all. intros s Hs. apply bool_decide_eq_false.
    by apply Hss.
Qed.

Lemma findSlot_first_match_witness :
  findSlot [ mkDoctor "doc-A" "Dr. Sharma" "General Medicine" [];
             mkDoctor "doc-A" "Dr. Patel" "Pediatrics"
               [mkSlot "s1" "doc-A" 9 10 defaultCapacity [] []] ]
           "doc-A" "s1" = None.
Proof.
  eapply (findSlot_first_match _ "doc-A" "s1") with (ds1 := []).
  - reflexivity.
  - intros d Hd. by apply elem_of_nil in Hd.
  - reflexivity.
  - intros s Hs. by apply elem_of_nil in Hs.
Defined.

(** X15: [findSlotByTokenId] returns nothing exactly when no slot of the
    store holds the identifier among its occupants or on its waitlist;
    otherwise it returns the first doctor that has such a slot, with
    the first such slot of that doctor. *)
Theorem findSlotByTokenId_first_holder doctors tokenId :
  (findSlotByTokenId doctors tokenId = None ↔
   ∀ d s, d ∈ doctors → s ∈ slots d → tokenId ∉ ids s)
  ∧ (∀ slot doctor,
       findSlotByTokenId doctors tokenId = Some (slot, doctor) ↔
       ∃ ds1 ds2 ss1 ss2,
         first_holder doctors tokenId ds1 doctor ds2 ss1 slot ss2).
Proof.
  split; [apply findSlotByTokenId_None|].
  intros slot doctor. apply findSlotByTokenId_Some.
Qed.

(** ** The handlers *)

Lemma slot_frame_applyAllocationResult slot r :
  slot_frame (applyAllocationResult slot r) = slot_frame slot.
Proof.
  unfold applyAllocationResult.
  by destruct (result_status r), (allocatedToken r), (displacedToken r).
Qed.

Lemma slot_frame_promoteFromWaitlist slot :
  slot_frame (promoteFromWaitlist slot) = slot_frame slot.
Proof.
  unfold promoteFromWaitlist.
  destruct (_ =? _); [done|]. by destruct (_ !! _).
Qed.

Lemma slot_frame_cancelToken slot tokenId :
  slot_frame (cancelToken slot tokenId) = slot_frame slot.
Proof.
  unfold cancelToken. destruct (removeTokenById _ _).1; [|done].
  by rewrite slot_frame_promoteFromWaitlist.
Qed.

(** Putting a slot with the same frame, still within [max], at a place
    of the store keeps the store's frame and bound. *)
Lemma replace_slot_keeps ds1 doctor ds2 ss1 slot ss2 slot' :
  slots doctor = ss1 ++ slot :: ss2 →
  slot_frame slot' = slot_frame slot →
  store_frame (ds1 ++ set_slots doctor (ss1 ++ slot' :: ss2) :: ds2)
  = store_frame (ds1 ++ doctor :: ds2)
  ∧ (within_max slot' → store_within_max (ds1 ++ doctor :: ds2) →
     store_within_max (ds1 ++ set_slots doctor (ss1 ++ slot' :: ss2) :: ds2)).
Proof.
  intros Hss Hfr. split.
  - unfold store_frame. rewrite !fmap_app, !fmap_cons. simpl.
    by rewrite Hss, !fmap_app, !fmap_cons, Hfr.
  - intros Hb Hall d s Hd Hs.
    apply elem_of_app in Hd as [Hd|Hd].
    { apply (Hall d s); [|done]. apply elem_of_app. by left. }
    apply elem_of_cons in Hd as [->|Hd].
    + simpl in Hs. apply elem_of_app in Hs as [Hs|Hs].
      * apply (Hall doctor s).
        -- apply elem_of_app. right. apply elem_of_cons. by left.
        -- rewrite Hss. apply elem_of_app. by left.
      * apply elem_of_cons in Hs as [->|Hs]; [done|].
        apply (Hall doctor s).
        -- apply elem_of_app. right. apply elem_of_cons. by left.
        -- rewrite Hss. apply elem_of_app. right. apply elem_of_cons.
           by right.
    + apply (Hall d s); [|done].
      apply elem_of_app. right. apply elem_of_cons. by right.
Qed.

Lemma createTokenHandler_found env body doctors ds1 doctor ds2 ss1 slot ss2 :
  slot_place doctors (body_doctorId body) (body_slotId body)
             ds1 doctor ds2 ss1 slot ss2 →
  createTokenHandler env body doctors
  = (mkResponse 201
       (CreatedBody (allocateTokenToSlot slot (newToken env body))
          (summary (createToken slot (newToken env body))
                   (Some (capacity slot)))),
     ds1 ++ set_slots doctor
              (ss1 ++ createToken slot (newToken env body) :: ss2) :: ds2).
Proof.
  intros Hplace. unfold createTokenHandler.
  assert (findSlot doctors (body_doctorId body) (body_slotId body)
          = Some slot) as ->
    by (apply findSlot_Some; eauto 10).
  rewrite (updateSlot_place _ _ _ _ _ _ _ _ _ _ Hplace).
  by rewrite capacity_applyAllocationResult.
Qed.

Lemma cancelTokenHandler_found tokenId doctors ds1 doctor ds2 ss1 slot ss2 :
  first_holder doctors tokenId ds1 doctor ds2 ss1 slot ss2 →
  cancelTokenHandler tokenId doctors
  = (mkResponse 200
       (MessageBody "Token cancelled successfully"
          (summary (cancelToken slot tokenId) None)),
     ds1 ++ set_slots doctor (ss1 ++ cancelToken slot tokenId :: ss2) :: ds2).
Proof.
  intros Hplace. unfold cancelTokenHandler.
  assert (findSlotByTokenId doctors tokenId = Some (slot, doctor)) as ->
    by (apply findSlotByTokenId_Some; eauto 10).
  by rewrite (updateSlotByTokenId_holder _ _ _ _ _ _ _ _ _ Hplace).
Qed.

Lemma markNoShowHandler_found tokenId doctors ds1 doctor ds2 ss1 slot ss2 :
  first_holder doctors tokenId ds1 doctor ds2 ss1 slot ss2 →
  markNoShowHandler tokenId doctors
  = (mkResponse 200
       (MessageBody "Token marked as no-show"
          (summary (cancelToken slot tokenId) None)),
     ds1 ++ set_slots doctor (ss1 ++ cancelToken slot tokenId :: ss2) :: ds2).
Proof.
  intros Hplace. unfold markNoShowHandler.
  assert (findSlotByTokenId doctors tokenId = Some (slot, doctor)) as ->
    by (apply findSlotByTokenId_Some; eauto 10).
  by rewrite (updateSlotByTokenId_holder _ _ _ _ _ _ _ _ _ Hplace).
Qed.

(** X16: [createTokenHandler] answers 404 "Slot not found" and leaves
    the store alone when [findSlot] finds nothing.  Otherwise it answers
    201 with the decision taken on the slot found, replaces that slot
    (and no other) by the slot after decide-then-apply, and reports the
    new lengths of its occupants and waitlist. *)
Theorem createTokenHandler_spec env body doctors :
  (findSlot doctors (body_doctorId body) (body_slotId body) = None →
   createTokenHandler env body doctors
   = (mkResponse 404 (ErrorBody "Slot not found"), doctors))
  ∧ (∀ ds1 doctor ds2 ss1 slot ss2,
       slot_place doctors (body_doctorId body) (body_slotId body)
                  ds1 doctor ds2 ss1 slot ss2 →
       createTokenHandler env body doctors
       = (mkResponse 201
            (CreatedBody (allocateTokenToSlot slot (newToken env body))
               (summary (createToken slot (newToken env body))
                        (Some (capacity slot)))),
          ds1 ++ set_slots doctor
                   (ss1 ++ createToken slot (newToken env body) :: ss2)
              :: ds2)).
Proof.
  split.
  - intros Hnone. unfold createTokenHandler. by rewrite Hnone.
  - intros ds1 doctor ds2 ss1 slot ss2. apply createTokenHandler_found.
Qed.

Lemma createTokenHandler_spec_witness :
  createTokenHandler (mkEntropy 1700000000000 "k3j9x0q1z" 1700000000001
                                1700000000002)
    (mkCreateTokenBody "doc-A" "doc-A-slot-9" None ONLINE MEDIUM None)
    [mkDoctor "doc-A" "Dr. Sharma" "General Medicine"
       [mkSlot "doc-A-slot-1" "doc-A" 9 10 defaultCapacity [] []]]
  = (mkResponse 404 (ErrorBody "Slot not found"),
     [mkDoctor "doc-A" "Dr. Sharma" "General Medicine"
        [mkSlot "doc-A-slot-1" "doc-A" 9 10 defaultCapacity [] []]]).
Proof.
  apply (createTokenHandler_spec
           (mkEntropy 1700000000000 "k3j9x0q1z" 1700000000001 1700000000002)
           (mkCreateTokenBody "doc-A" "doc-A-slot-9" None ONLINE MEDIUM None)).
  reflexivity.
Defined.

(** X17: [cancelTokenHandler] and [markNoShowHandler] answer 404
    "Token not found" exactly when no slot of the store holds the
    identifier, and then leave the store alone; in every other case
    they answer 200. *)
Theorem cancel_handlers_not_found tokenId doctors :
  (statusCode (cancelTokenHandler tokenId doctors).1 = 404
   ↔ ∀ d s, d ∈ doctors → s ∈ slots d → tokenId ∉ ids s)
  ∧ (statusCode (cancelTokenHandler tokenId doctors).1 = 404 →
     cancelTokenHandler tokenId doctors
     = (mkResponse 404 (ErrorBody "Token not found"), doctors)
     ∧ markNoShowHandler tokenId doctors
       = (mkResponse 404 (ErrorBody "Token not found"), doctors))
  ∧ (statusCode (cancelTokenHandler tokenId doctors).1 ≠ 404 →
     statusCode (cancelTokenHandler tokenId doctors).1 = 200
     ∧ statusCode (markNoShowHandler tokenId doctors).1 = 200).
Proof.
  rewrite <- findSlotByTokenId_None.
  unfold cancelTokenHandler, markNoShowHandler.
  destruct (findSlotByTokenId doctors tokenId) as [[slot doctor]|]; simpl.
  - split; [split; discriminate|]. split; [discriminate|done].
  - split; [done|]. split; [done|]. intros H. by destruct H.
Qed.

Lemma cancel_handlers_not_found_witness :
  cancelTokenHandler "nobody"
    [mkDoctor "doc-A" "Dr. Sharma" "General Medicine"
       [mkSlot "doc-A-slot-1" "doc-A" 9 10 defaultCapacity [] []]]
  = (mkResponse 404 (ErrorBody "Token not found"),
     [mkDoctor "doc-A" "Dr. Sharma" "General Medicine"
        [mkSlot "doc-A-slot-1" "doc-A" 9 10 defaultCapacity [] []]])
  ∧ markNoShowHandler "nobody"
      [mkDoctor "doc-A" "Dr. Sharma" "General Medicine"
         [mkSlot "doc-A-slot-1" "doc-A" 9 10 defaultCapacity [] []]]
    = (mkResponse 404 (ErrorBody "Token not found"),
       [mkDoctor "doc-A" "Dr. Sharma" "General Medicine"
          [mkSlot "doc-A-slot-1" "doc-A" 9 10 defaultCapacity [] []]]).
Proof.
  apply (cancel_handlers_not_found "nobody"). reflexivity.
Defined.

(** X18: when the search stops at a slot, [cancelTokenHandler] answers
    200 "Token cancelled successfully", replaces that slot (and no
    other) by the slot after [cancelToken], and reports the new lengths;
    [markNoShowHandler] makes the same change to the store and answers
    with its own message. *)
Theorem cancel_handlers_effect tokenId doctors ds1 doctor ds2 ss1 slot ss2 :
  first_holder doctors tokenId ds1 doctor ds2 ss1 slot ss2 →
  cancelTokenHandler tokenId doctors
  = (mkResponse 200
       (MessageBody "Token cancelled successfully"
          (summary (cancelToken slot tokenId) None)),
     ds1 ++ set_slots doctor (ss1 ++ cancelToken slot tokenId :: ss2) :: ds2)
  ∧ markNoShowHandler tokenId doctors
    = (mkResponse 200
         (MessageBody "Token marked as no-show"
            (summary (cancelToken slot tokenId) None)),
       (cancelTokenHandler tokenId doctors).2).
Proof.
  intros Hplace.
  rewrite (cancelTokenHandler_found _ _ _ _ _ _ _ _ Hplace).
  split; [done|]. by apply markNoShowHandler_found.
Qed.

(** X19: a token that is only waitlisted in the slot where the search
    stops is not cancelled: the handler answers 200 "Token cancelled
    successfully", but the store is what it was and the token is still
    on the waitlist. *)
Theorem cancel_handler_waitlisted_only tokenId doctors
    ds1 doctor ds2 ss1 slot ss2 :
  first_holder doctors tokenId ds1 doctor ds2 ss1 slot ss2 →
  tokenId ∉ id <$> tokens slot →
  cancelTokenHandler tokenId doctors
  = (mkResponse 200
       (MessageBody "Token cancelled successfully" (summary slot None)),
     doctors)
  ∧ tokenId ∈ id <$> waitlist slot.
Proof.
  intros Hplace Habs.
  rewrite (cancelTokenHandler_found _ _ _ _ _ _ _ _ Hplace).
  destruct Hplace as (-> & _ & Hss & _ & Hin).
  assert (cancelToken slot tokenId = slot) as ->.
  { unfold cancelToken. rewrite removeTokenById_absent; simpl.
    - apply set_tokens_same.
    - intros t Ht Hid. apply Habs. rewrite <- Hid.
      by apply list_elem_of_fmap_2. }
  rewrite <- Hss, set_slots_same. split; [done|].
  unfold ids in Hin. rewrite fmap_app in Hin.
  by apply elem_of_app in Hin as [Hin|Hin].
Qed.

Lemma cancel_handlers_effect_witness :
  cancelTokenHandler "active" [sample_doctor]
  = (mkResponse 200
       (MessageBody "Token cancelled successfully"
          (summary (cancelToken sample_slot "active") None)),
     [] ++ set_slots sample_doctor
             ([] ++ cancelToken sample_slot "active" :: []) :: [])
  ∧ markNoShowHandler "active" [sample_doctor]
    = (mkResponse 200
         (MessageBody "Token marked as no-show"
            (summary (cancelToken sample_slot "active") None)),
       (cancelTokenHandler "active" [sample_doctor]).2).
Proof.
  apply (cancel_handlers_effect "active" [sample_doctor]
           [] sample_doctor [] [] sample_slot []).
  unfold first_holder. split_and!; try done.
  - intros d s Hd. by apply elem_of_nil in Hd.
  - intros s Hs. by apply elem_of_nil in Hs.
  - apply elem_of_cons. by left.
Defined.

Lemma cancel_handler_waitlisted_only_witness :
  cancelTokenHandler "wait" [sample_doctor]
  = (mkResponse 200
       (MessageBody "Token cancelled successfully"
          (summary sample_slot None)),
     [sample_doctor])
  ∧ "wait" ∈ id <$> waitlist sample_slot.
Proof.
  apply (cancel_handler_waitlisted_only "wait" [sample_doctor]
           [] sample_doctor [] [] sample_slot []).
  - unfold first_holder. split_and!; try done.
    + intros d s Hd. by apply elem_of_nil in Hd.
    + intros s Hs. by apply elem_of_nil in Hs.
    + apply elem_of_cons. right. apply elem_of_cons. by left.
  - simpl. intros H. apply list_elem_of_singleton in H. discriminate H.
Defined.

(** X20: the handlers keep every slot of the store within its [max]:
    if all slots hold at most [max] occupants before a call of
    [createTokenHandler], [cancelTokenHandler] or [markNoShowHandler],
    they all do after it. *)
Theorem handlers_keep_within_max env body tokenId doctors :
  store_within_max doctors →
  store_within_max (createTokenHandler env body doctors).2
  ∧ store_within_max (cancelTokenHandler tokenId doctors).2
  ∧ store_within_max (markNoShowHandler tokenId doctors).2.
Proof.
  intros Hall.
  assert (∀ ds1 doctor ds2 ss1 slot ss2,
            doctors = ds1 ++ doctor :: ds2 →
            slots doctor = ss1 ++ slot :: ss2 → within_max slot) as Hslot.
  { intros ds1 doctor ds2 ss1 slot ss2 -> Hss. apply (Hall doctor).
    - apply elem_of_app. right. apply elem_of_cons. by left.
    - rewrite Hss. apply elem_of_app. right. apply elem_of_cons. by left. }
  split; [|split].
  - destruct (findSlot doctors (body_doctorId body) (body_slotId body))
      as [slot|] eqn:Hf.
    + apply findSlot_Some in Hf as (ds1 & doctor & ds2 & ss1 & ss2 & Hplace).
      rewrite (createTokenHandler_found _ _ _ _ _ _ _ _ _ Hplace). simpl.
      destruct Hplace as (Hd & _ & _ & Hss & _).
      specialize (Hslot _ _ _ _ _ _ Hd Hss). subst doctors.
      apply (replace_slot_keeps ds1 doctor ds2 ss1 slot ss2); try done.
      * apply slot_frame_applyAllocationResult.
      * by apply within_max_createToken.
    + unfold createTokenHandler. by rewrite Hf.
  - destruct (findSlotByTokenId doctors tokenId) as [[slot doctor]|] eqn:Hf.
    + apply findSlotByTokenId_Some in Hf as (ds1 & ds2 & ss1 & ss2 & Hplace).
      rewrite (cancelTokenHandler_found _ _ _ _ _ _ _ _ Hplace). simpl.
      destruct Hplace as (Hd & _ & Hss & _).
      specialize (Hslot _ _ _ _ _ _ Hd Hss). subst doctors.
      apply (replace_slot_keeps ds1 doctor ds2 ss1 slot ss2); try done.
      * apply slot_frame_cancelToken.
      * by apply within_max_cancelToken.
    + unfold cancelTokenHandler. by rewrite Hf.
  - destruct (findSlotByTokenId doctors tokenId) as [[slot doctor]|] eqn:Hf.
    + apply findSlotByTokenId_Some in Hf as (ds1 & ds2 & ss1 & ss2 & Hplace).
      rewrite (markNoShowHandler_found _ _ _ _ _ _ _ _ Hplace). simpl.
      destruct Hplace as (Hd & _ & Hss & _).
      specialize (Hslot _ _ _ _ _ _ Hd Hss). subst doctors.
      apply (replace_slot_keeps ds1 doctor ds2 ss1 slot ss2); try done.
      * apply slot_frame_cancelToken.
      * by apply within_max_cancelToken.
    + unfold markNoShowHandler. by rewrite Hf.
Qed.

Lemma handlers_keep_within_max_witness :
  store_within_max
    (createTokenHandler (mkEntropy 1700000000000 "k3j9x0q1z" 1700000000001
                                   1700000000002)
       (mkCreateTokenBody "doc-A" "doc-A-slot-1" None ONLINE MEDIUM None)
       [sample_doctor]).2
  ∧ store_within_max (cancelTokenHandler "active" [sample_doctor]).2
  ∧ store_within_max (markNoShowHandler "active" [sample_doctor]).2.
Proof.
  apply (handlers_keep_within_max _ _ "active" [sample_doctor]).
  intros d s Hd Hs.
  apply list_elem_of_singleton in Hd. subst d.
  apply list_elem_of_singleton in Hs. subst s.
  unfold within_max. vm_compute. congruence.
Defined.

(** X21: no handler adds, drops or reorders doctors or slots, or changes
    a doctor's fields or a slot's identifier, doctor, times or capacity:
    only the occupants and the waitlist of slots change. *)
Theorem handlers_keep_frame env body tokenId doctors :
  store_frame (createTokenHandler env body doctors).2 = store_frame doctors
  ∧ store_frame (cancelTokenHandler tokenId doctors).2 = store_frame doctors
  ∧ store_frame (markNoShowHandler tokenId doctors).2 = store_frame doctors.
Proof.
  split; [|split].
  - destruct (findSlot doctors (body_doctorId body) (body_slotId body))
      as [slot|] eqn:Hf.
    + apply findSlot_Some in Hf as (ds1 & doctor & ds2 & ss1 & ss2 & Hplace).
      rewrite (createTokenHandler_found _ _ _ _ _ _ _ _ _ Hplace). simpl.
      destruct Hplace as (-> & _ & _ & Hss & _).
      apply (replace_slot_keeps ds1 doctor ds2 ss1 slot ss2); [done|].
      apply slot_frame_applyAllocationResult.
    + unfold createTokenHandler. by rewrite Hf.
  - destruct (findSlotByTokenId doctors tokenId) as [[slot doctor]|] eqn:Hf.
    + apply findSlotByTokenId_Some in Hf as (ds1 & ds2 & ss1 & ss2 & Hplace).
      rewrite (cancelTokenHandler_found _ _ _ _ _ _ _ _ Hplace). simpl.
      destruct Hplace as (-> & _ & Hss & _).
      apply (replace_slot_keeps ds1 doctor ds2 ss1 slot ss2); [done|].
      apply slot_frame_cancelToken.
    + unfold cancelTokenHandler. by rewrite Hf.
  - destruct (findSlotByTokenId doctors tokenId) as [[slot doctor]|] eqn:Hf.
    + apply findSlotByTokenId_Some in Hf as (ds1 & ds2 & ss1 & ss2 & Hplace).
      rewrite (markNoShowHandler_found _ _ _ _ _ _ _ _ Hplace). simpl.
      destruct Hplace as (-> & _ & Hss & _).
      apply (replace_slot_keeps ds1 doctor ds2 ss1 slot ss2); [done|].
      apply slot_frame_cancelToken.
    + unfold markNoShowHandler. by rewrite Hf.
Qed.

(** ** The first version of the controller *)

Lemma existsb_find (p : Slot → bool) (ss : list Slot) :
  existsb p ss = match find p ss with Some _ => true | None => false end.
Proof.
  induction ss as [|s ss IH]; simpl; [done|]. by destruct (p s).
Qed.

Lemma cancelInSlots_find tokenId ss :
  InlineSearch.cancelInSlots tokenId ss
  = match find (holdsToken tokenId) ss with
    | Some slot =>
        Some (mkResponse 200
                (MessageBody "Token cancelled successfully"
                   (summary (cancelToken slot tokenId) None)),
              update_first (holdsToken tokenId)
                           (λ _, cancelToken slot tokenId) ss)
    | None => None
    end.
Proof.
  induction ss as [|s ss IH]; simpl; [done|].
  destruct (holdsToken tokenId s); [done|]. rewrite IH.
  by destruct (find (holdsToken tokenId) ss).
Qed.

Lemma noShowInSlots_find tokenId ss :
  InlineSearch.noShowInSlots tokenId ss
  = match find (holdsToken tokenId) ss with
    | Some slot =>
        Some (mkResponse 200
                (MessageBody "Token marked as no-show"
                   (summary (markNoShow slot tokenId) None)),
              update_first (holdsToken tokenId)
                           (λ _, markNoShow slot tokenId) ss)
    | None => None
    end.
Proof.
  induction ss as [|s ss IH]; simpl; [done|].
  destruct (holdsToken tokenId s); [done|]. rewrite IH.
  by destruct (find (holdsToken tokenId) ss).
Qed.

(** X22: the first version of [cancelTokenHandler] and of
    [markNoShowHandler], which search the store in their own loops, and
    the second, which call [findSlotByTokenId], give the same response
    and the same store on every input. *)
Theorem inline_search_agrees tokenId doctors :
  InlineSearch.cancelTokenHandler tokenId doctors
  = cancelTokenHandler tokenId doctors
  ∧ InlineSearch.markNoShowHandler tokenId doctors
    = markNoShowHandler tokenId doctors.
Proof.
  unfold InlineSearch.cancelTokenHandler, InlineSearch.markNoShowHandler,
    cancelTokenHandler, markNoShowHandler, updateSlotByTokenId.
  split.
  - assert (InlineSearch.cancelInDoctors tokenId doctors
            = match findSlotByTokenId doctors tokenId with
              | Some (slot, _) =>
                  Some (mkResponse 200
                          (MessageBody "Token cancelled successfully"
                             (summary (cancelToken slot tokenId) None)),
                        update_first
                          (λ d, existsb (holdsToken tokenId) (slots d))
                          (λ d, set_slots d
                                  (update_first (holdsToken tokenId)
                                     (λ _, cancelToken slot tokenId)
                                     (slots d)))
                          doctors)
              | None => None
              end) as ->.
    { induction doctors as [|d ds IH]; simpl; [done|].
      rewrite cancelInSlots_find, existsb_find.
      destruct (find (holdsToken tokenId) (slots d)); [done|].
      rewrite IH. by destruct (findSlotByTokenId ds tokenId) as [[? ?]|]. }
    by destruct (findSlotByTokenId doctors tokenId) as [[? ?]|].
  - assert (InlineSearch.noShowInDoctors tokenId doctors
            = match findSlotByTokenId doctors tokenId with
              | Some (slot, _) =>
                  Some (mkResponse 200
                          (MessageBody "Token marked as no-show"
                             (summary (markNoShow slot tokenId) None)),
                        update_first
                          (λ d, existsb (holdsToken tokenId) (slots d))
                          (λ d, set_slots d
                                  (update_first (holdsToken tokenId)
                                     (λ _, markNoShow slot tokenId)
                                     (slots d)))
                          doctors)
              | None => None
              end) as ->.
    { induction doctors as [|d ds IH]; simpl; [done|].
      rewrite noShowInSlots_find, existsb_find.
      destruct (find (holdsToken tokenId) (slots d)); [done|].
      rewrite IH. by destruct (findSlotByTokenId ds tokenId) as [[? ?]|]. }
    by destruct (findSlotByTokenId doctors tokenId) as [[? ?]|].
Qed.

(** X23: the first version of [createTokenHandler] answers 404 "Doctor
    not found" when no doctor carries the identifier and 404 "Slot not
    found" when the first such doctor has no slot with the slot
    identifier, the store untouched in both cases; otherwise it answers
    201 and replaces the slot found by the slot after decide-then-apply
    of its own token.  Its status code is always that of the second
    version. *)
Theorem inline_createTokenHandler_spec env body doctors :
  ((∀ d, d ∈ doctors → doctor_id d ≠ body_doctorId body) →
   InlineSearch.createTokenHandler env body doctors
   = (mkResponse 404 (ErrorBody "Doctor not found"), doctors))
  ∧ ((∃ d, d ∈ doctors ∧ doctor_id d = body_doctorId body) →
     findSlot doctors (body_doctorId body) (body_slotId body) = None →
     InlineSearch.createTokenHandler env body doctors
     = (mkResponse 404 (ErrorBody "Slot not found"), doctors))
  ∧ (∀ ds1 doctor ds2 ss1 slot ss2,
       slot_place doctors (body_doctorId body) (body_slotId body)
                  ds1 doctor ds2 ss1 slot ss2 →
       InlineSearch.createTokenHandler env body doctors
       = (mkResponse 201
            (CreatedBody
               (allocateTokenToSlot slot (InlineSearch.newToken env body))
               (summary (createToken slot (InlineSearch.newToken env body))
                        (Some (capacity slot)))),
          ds1 ++ set_slots doctor
                   (ss1 ++ createToken slot (InlineSearch.newToken env body)
                        :: ss2)
              :: ds2))
  ∧ statusCode (InlineSearch.createTokenHandler env body doctors).1
    = statusCode (createTokenHandler env body doctors).1.
Proof.
  split_and!.
  - intros Hno. unfold InlineSearch.createTokenHandler.
    assert (find (λ d, bool_decide (doctor_id d = body_doctorId body)) doctors
            = None) as ->; [|done].
    apply find_None_all. intros d Hd. apply bool_decide_eq_false.
    by apply Hno.
  - intros (d & Hd & Hid) Hnone.
    unfold InlineSearch.createTokenHandler.
    unfold findSlot, findDoctorById in Hnone.
    destruct (find _ doctors) as [doctor|] eqn:Hf.
    + by rewrite Hnone.
    + exfalso. apply (proj1 (find_None_all _ _)) with (y := d) in Hf; [|done].
      by apply bool_decide_eq_false in Hf.
  - intros ds1 doctor ds2 ss1 slot ss2 Hplace.
    unfold InlineSearch.createTokenHandler.
    assert (findSlot doctors (body_doctorId body) (body_slotId body)
            = Some slot) as Hfound
      by (apply findSlot_Some; eauto 10).
    unfold findSlot, findDoctorById in Hfound.
    destruct (find _ doctors) as [doctor'|]; [|done]. rewrite Hfound.
    rewrite (updateSlot_place _ _ _ _ _ _ _ _ _ _ Hplace).
    by rewrite capacity_applyAllocationResult.
  - unfold InlineSearch.createTokenHandler, createTokenHandler,
      findSlot, findDoctorById.
    destruct (find _ doctors) as [doctor|]; [|done].
    by destruct (find _ (slots doctor)).
Qed.

Lemma inline_createTokenHandler_spec_witness :
  InlineSearch.createTokenHandler
    (mkEntropy 1700000000000 "k3j9x0q1z" 1700000000001 1700000000002)
    (mkCreateTokenBody "doc-Z" "doc-A-slot-1" None ONLINE MEDIUM None)
    [sample_doctor]
  = (mkResponse 404 (ErrorBody "Doctor not found"), [sample_doctor]).
Proof.
  apply (inline_createTokenHandler_spec
           (mkEntropy 1700000000000 "k3j9x0q1z" 1700000000001 1700000000002)
           (mkCreateTokenBody "doc-Z" "doc-A-slot-1" None ONLINE MEDIUM None)
           [sample_doctor]).
  intros d Hd. apply list_elem_of_singleton in Hd. subst d.
  simpl. discriminate.
Defined.

(* ================================================================== *)
(** * The simulation driver *)

(** One call of [processToken]: the slot is the one after
    decide-then-apply, one line is written, and exactly one of the
    three outcome counters moves with the slot's population. *)
Lemma processToken_step c slot out token :
  (Simulation.processToken (c, slot, out) token).1.2 = createToken slot token
  ∧ length (Simulation.processToken (c, slot, out) token).2 = S (length out)
  ∧ ∃ a w r d : Z,
      0 ≤ d ≤ a ∧ 0 ≤ w ∧ 0 ≤ r ∧ a + w + r = 1
      ∧ population (createToken slot token) = population slot + a + w
      ∧ (Simulation.processToken (c, slot, out) token).1.1
        = Simulation.mkCounters
            (Simulation.totalTokensProcessed c + 1)
            (Simulation.totalEmergencies c)
            (Simulation.totalDisplaced c + d)
            (Simulation.totalRejected c + r)
            (Simulation.totalWaitlisted c + w)
            (Simulation.totalAllocated c + a).
Proof.
  unfold Simulation.processToken. simpl.
  split; [done|]. split; [rewrite length_app; simpl; lia|].
  fold (createToken slot token). unfold population.
  destruct (createToken_cases slot token)
    as [(_ & Hst & Heq)
       |[(_ & Hst & d & t1 & x & t2 & _ & _ & Ht & _ & _ & Heq)
        |(_ & _ & [(_ & Hst & Heq)|(_ & Hst & Heq)])]];
    rewrite Hst, Heq; simpl.
  - exists 1, 0, 0, 0. rewrite !Z.add_0_r, length_app. simpl.
    split_and!; try done; lia.
  - exists 1, 0, 0, 1. rewrite !Z.add_0_r, Ht.
    repeat (rewrite ?length_app; simpl). split_and!; try done; lia.
  - exists 0, 1, 0, 0. rewrite !Z.add_0_r, length_app. simpl.
    split_and!; try done; lia.
  - exists 0, 0, 1, 0. rewrite !Z.add_0_r. split_and!; try done; lia.
Qed.

(** X24: after [processToken] has run on any sequence of tokens, the
    counters add up: every processed token is counted once as allocated
    (a displacement counts as allocated too), waitlisted or rejected;
    displacements never exceed allocations; the emergency counter is
    not touched; the slot's population has grown by the allocated and
    waitlisted tokens; one line was written per token. *)
Theorem processToken_counters (toks : list Token) c slot out :
  let st := foldl Simulation.processToken (c, slot, out) toks in
  let n := Z.of_nat (length toks) in
  let dA := Simulation.totalAllocated st.1.1 - Simulation.totalAllocated c in
  let dW := Simulation.totalWaitlisted st.1.1 - Simulation.totalWaitlisted c in
  let dR := Simulation.totalRejected st.1.1 - Simulation.totalRejected c in
  let dD := Simulation.totalDisplaced st.1.1 - Simulation.totalDisplaced c in
  Simulation.totalTokensProcessed st.1.1
    = Simulation.totalTokensProcessed c + n
  ∧ dA + dW + dR = n
  ∧ 0 ≤ dD ≤ dA ∧ 0 ≤ dW ∧ 0 ≤ dR
  ∧ Simulation.totalEmergencies st.1.1 = Simulation.totalEmergencies c
  ∧ population st.1.2 = population slot + dA + dW
  ∧ length st.2 = (length out + length toks)%nat.
Proof.
  induction toks as [|token toks IH] using rev_ind; simpl.
  - split_and!; try done; lia.
  - rewrite foldl_app. simpl.
    destruct (foldl Simulation.processToken (c, slot, out) toks)
      as [[c1 slot1] out1].
    simpl in IH. destruct IH as (Hp & Hsum & Hd & Hw & Hr & He & Hpop & Hout).
    destruct (processToken_step c1 slot1 out1 token)
      as (Hslot & Hlen & a & w & r & d & Hda & Hw' & Hr' & Hone & Hpop' & Hc).
    rewrite Hslot, Hlen, Hc, Hpop'. simpl.
    rewrite length_app. simpl. split_and!; lia.
Qed.

(** X25: with priorities as [getPriorityForSource] gives them, a token
    of source EMERGENCY, PRIORITY, FOLLOW_UP or ONLINE is never
    REJECTED, and a token of any other source (WALK_IN included), on a
    slot whose occupants have such priorities, displaces nobody and is
    never waitlisted: it is ALLOCATED or REJECTED. *)
Theorem simulated_priorities slot token :
  priority token = Simulation.getPriorityForSource (source token) →
  (source token = EMERGENCY ∨ source token = PRIORITY
   ∨ source token = FOLLOW_UP ∨ source token = ONLINE →
   result_status (allocateTokenToSlot slot token) ≠ REJECTED)
  ∧ (¬ (source token = EMERGENCY ∨ source token = PRIORITY
        ∨ source token = FOLLOW_UP ∨ source token = ONLINE) →
     (∀ x, x ∈ tokens slot →
           priority x = Simulation.getPriorityForSource (source x)) →
     result_status (allocateTokenToSlot slot token) = ALLOCATED
     ∨ result_status (allocateTokenToSlot slot token) = REJECTED).
Proof.
  intros Hp.
  assert (∀ s, 20 ≤ Simulation.getPriorityForSource s) as Hmin.
  { intros s. unfold Simulation.getPriorityForSource, EMERGENCY_LEVEL,
      VERY_HIGH, HIGH, MEDIUM, LOW. repeat case_decide; lia. }
  split.
  - intros Hs.
    assert (40 ≤ priority token) as H40.
    { rewrite Hp. unfold Simulation.getPriorityForSource, EMERGENCY_LEVEL,
        VERY_HIGH, HIGH, MEDIUM, LOW.
      repeat case_decide; try lia; exfalso; intuition congruence. }
    destruct (createToken_cases slot token)
      as [(_ & Hst & _)|[(_ & Hst & _)|(_ & _ & [(_ & Hst & _)|(? & _)])]];
      [by rewrite Hst..|lia].
  - intros Hs Hocc.
    assert (priority token = 20) as H20.
    { rewrite Hp. unfold Simulation.getPriorityForSource, EMERGENCY_LEVEL,
        VERY_HIGH, HIGH, MEDIUM, LOW.
      repeat case_decide; try done; exfalso; apply Hs; auto. }
    destruct (createToken_cases slot token)
      as [(_ & Hst & _)
         |[(_ & _ & d & _ & _ & _ & Hd & Hlt & _)
          |(_ & _ & [(? & _)|(_ & Hst & _)])]]; [by left| |lia|by right].
    exfalso.
    destruct (findLowestPriorityMovableToken_Some _ _ Hd)
      as (l1 & l2 & Hsplit & _).
    assert (d ∈ tokens slot) as Hin.
    { rewrite Hsplit. apply elem_of_app. right. apply elem_of_cons. by left. }
    specialize (Hocc d Hin). specialize (Hmin (source d)). lia.
Qed.

Lemma simulated_priorities_witness :
  let slot :=
    createTestSlot [createTestToken "o" ONLINE MEDIUM true] []
                   (mkSlotCapacity 1 0 0) in
  let token := createTestToken "f" FOLLOW_UP HIGH true in
  result_status (allocateTokenToSlot slot token) ≠ REJECTED.
Proof.
  intros slot token. apply (simulated_priorities slot token).
  - reflexivity.
  - right. right. by left.
Defined.

(** X26: with movability as [isMovableSource] gives it, the movable
    sources are all but EMERGENCY and PRIORITY, so on a slot whose
    occupants are built that way no decision displaces an occupant of
    source EMERGENCY or PRIORITY. *)
Theorem simulated_movability slot token (d : Token) :
  (∀ x, x ∈ tokens slot →
        movable x = Simulation.isMovableSource (source x)) →
  displacedToken (allocateTokenToSlot slot token) = Some d →
  source d ≠ EMERGENCY ∧ source d ≠ PRIORITY.
Proof.
  intros Hocc Hdis.
  assert (∃ d', findLowestPriorityMovableToken slot = Some d' ∧ d' = d)
    as (d' & Hd & ->).
  { revert Hdis. unfold allocateTokenToSlot.
    destruct (canAllocateToken slot token); [done|].
    destruct (findLowestPriorityMovableToken slot) as [d'|].
    - destruct (_ <? _); simpl; [intros [= <-]; by exists d'|].
      unfold waitlistOrReject. by destruct (_ <=? _).
    - unfold waitlistOrReject. by destruct (_ <=? _). }
  destruct (findLowestPriorityMovableToken_Some _ _ Hd)
    as (l1 & l2 & Hsplit & [Hm _] & _).
  assert (d ∈ tokens slot) as Hin.
  { rewrite Hsplit. apply elem_of_app. right. apply elem_of_cons. by left. }
  rewrite (Hocc d Hin) in Hm. unfold Simulation.isMovableSource in Hm.
  apply andb_true_iff in Hm as [H1 H2].
  by apply bool_decide_eq_true in H1, H2.
Qed.

Lemma simulated_movability_witness :
  let slot :=
    createTestSlot [ createTestToken "p" PRIORITY VERY_HIGH false;
                     createTestToken "o" ONLINE MEDIUM true ]
                   [] (mkSlotCapacity 2 0 1) in
  let token := createTestToken "e" EMERGENCY EMERGENCY_LEVEL false in
  source (createTestToken "o" ONLINE MEDIUM true) ≠ EMERGENCY
  ∧ source (createTestToken "o" ONLINE MEDIUM true) ≠ PRIORITY.
Proof.
  intros slot token.
  apply (simulated_movability slot token
           (createTestToken "o" ONLINE MEDIUM true)).
  - intros x Hx.
    apply elem_of_cons in Hx as [->|Hx]; [reflexivity|].
    apply list_elem_of_singleton in Hx. subst x. reflexivity.
  - reflexivity.
Defined.

(* ================================================================== *)
(** * Histories *)

Lemma within_max_history_witness :
  within_max
    (foldl handle (createTestSlot [] [] (mkSlotCapacity 1 0 0))
       [ Submit (createTestToken "a" ONLINE LOW true);
         Submit (createTestToken "b" WALK_IN HIGH true);
         CancelRequest "b" ]).
Proof.
  apply within_max_history. unfold within_max. vm_compute. congruence.
Defined.

Lemma NoDup_history_witness :
  NoDup
    (ids (foldl handle (createTestSlot [] [] (mkSlotCapacity 1 0 0))
            [ Submit (createTestToken "a" ONLINE LOW true);
              Submit (createTestToken "b" WALK_IN HIGH true);
              CancelRequest "b" ])).
Proof.
  apply NoDup_history.
  - unfold ids. simpl. constructor.
  - simpl. split_and!; try done.
    + unfold ids. simpl. intros H. by apply elem_of_nil in H.
    + vm_compute. intros H. apply list_elem_of_singleton in H. discriminate H.
Defined.

(* ================================================================== *)
(** * Admission of the reserved classes *)

(** X29: on a slot with safe capacities (the reserved total and the
    general capacity below [2^53] in magnitude, so that the code
    computes them exactly) an EMERGENCY token is admitted exactly when
    the slot is below [max] and either fewer emergencies than
    [emergencyBuffer] are in or the general count is below
    [max - emergencyBuffer - priorityBuffer]; a PRIORITY or FOLLOW_UP
    token exactly when the slot is below [max] and either the priority
    count is below [priorityBuffer] or the general count is below
    [max - emergencyBuffer - priorityBuffer].  The emergency rule never
    looks at the priority count, nor the priority rule at the emergency
    count. *)
Theorem reserved_admission slot token :
  safe_capacity slot →
  (source token = EMERGENCY →
   (canAllocateToken slot token = true
    ↔ getTotalAllocated slot < max (capacity slot)
      ∧ (getEmergencyCount slot < emergencyBuffer (capacity slot)
         ∨ getGeneralCount slot
           < max (capacity slot) - emergencyBuffer (capacity slot)
             - priorityBuffer (capacity slot))))
  ∧ (source token = PRIORITY ∨ source token = FOLLOW_UP →
     (canAllocateToken slot token = true
      ↔ getTotalAllocated slot < max (capacity slot)
        ∧ (getPriorityCount slot < priorityBuffer (capacity slot)
           ∨ getGeneralCount slot
             < max (capacity slot) - emergencyBuffer (capacity slot)
               - priorityBuffer (capacity slot)))).
Proof.
  intros Hsafe. fold (generalCapacity slot).
  split; intros Hs; rewrite <- hasHardCapacity_true; split.
  - intros H. pose proof (canAllocateToken_hard _ _ H) as Hh.
    rewrite canAllocateToken_emergency in H by done.
    split; [done|]. unfold canConsumeEmergencyBuffer in H.
    apply orb_true_iff in H as [H|H]; apply Z.ltb_lt in H; auto.
  - intros [Hh H]. rewrite canAllocateToken_emergency by done.
    apply orb_true_iff. unfold canConsumeEmergencyBuffer.
    destruct H as [H|H]; [left|right]; by apply Z.ltb_lt.
  - intros H. pose proof (canAllocateToken_hard _ _ H) as Hh.
    rewrite canAllocateToken_priority in H by done.
    split; [done|]. unfold canConsumePriorityBuffer in H.
    apply orb_true_iff in H as [H|H]; apply Z.ltb_lt in H; auto.
  - intros [Hh H]. rewrite canAllocateToken_priority by done.
    apply orb_true_iff. unfold canConsumePriorityBuffer.
    destruct H as [H|H]; [left|right]; by apply Z.ltb_lt.
Qed.

Lemma reserved_admission_witness :
  let slot :=
    createTestSlot [ createTestToken "e" EMERGENCY EMERGENCY_LEVEL false;
                     createTestToken "a" ONLINE MEDIUM true;
                     createTestToken "b" ONLINE MEDIUM true ]
                   [] defaultCapacity in
  let token := createTestToken "e2" EMERGENCY EMERGENCY_LEVEL false in
  canAllocateToken slot token = true
  ↔ getTotalAllocated slot < max (capacity slot)
    ∧ (getEmergencyCount slot < emergencyBuffer (capacity slot)
       ∨ getGeneralCount slot
         < max (capacity slot) - emergencyBuffer (capacity slot)
           - priorityBuffer (capacity slot)).
Proof.
  intros slot token.
  refine (proj1 (reserved_admission slot token _) _).
  - split; vm_compute; reflexivity.
  - reflexivity.
Defined.

(* ================================================================== *)
(** * JavaScript numbers: rounding and printing at known values *)

(** Ties go to the even significand: [2^53 + 1] rounds down and
    [2^53 + 3] up; beyond [2^54] the step is 4. *)
Example round53_ties :
  jsAdd (2 ^ 53) 1 = 2 ^ 53
  ∧ jsAdd 1 (2 ^ 53 + 2) = 2 ^ 53 + 4
  ∧ round53 (2 ^ 54 + 2) = 2 ^ 54
  ∧ round53 (2 ^ 54 + 6) = 2 ^ 54 + 8
  ∧ round53 (- (2 ^ 53 + 1)) = - 2 ^ 53
  ∧ jsSub (2 ^ 53 + 2) (2 ^ 53) = 2.
Proof. vm_compute. by repeat split. Qed.

(** What [String(n)] gives in JavaScript at these integers. *)
Example numberToString_values :
  numberToString <$> [0; 20; -40; 2 ^ 53 + 2; 2 ^ 64; 10 ^ 21; 2 ^ 70;
                      99999999999999991611392; - 2 ^ 70]
  = ["0"; "20"; "-40"; "9007199254740994"; "18446744073709552000";
     "1e+21"; "1.1805916207174113e+21"; "1e+23";
     "-1.1805916207174113e+21"].
Proof. vm_compute. reflexivity. Qed.

Example displacement_reason_large :
  displacement_reason 40 (10 ^ 21)
  = "Token can displace lower-priority token (40 < 1e+21)".
Proof. vm_compute. reflexivity. Qed.
